(** * iofd: file-descriptor handles over raw system calls

    A shallow embedding of the Go package [iofd] (fd.go, eventfd, timerfd,
    signalfd, pidfd, memfd, errors) and the properties of its handle
    lifecycle.

    Conventions.
    - Go's fixed-width integers are [Z] with the wrap-around written out
      ([wrap_uint64], [wrap_int64], [wrap_int32]).
    - A Go [error] is [option error]; [None] is [nil].
    - The package [zcall] (raw system calls and errno constants) is not part
      of this repository: it is the class [Zcall], a parameter of every
      definition.  A system call steps an abstract kernel state and returns
      a reply; the [World] records the kernel state and the log of calls
      issued, so that "performs no kernel call" is a statement about the log.
    - Methods with a pointer receiver that write through it ([FD.Close],
      [SignalFD.SetMask]) return the new receiver; the others only read it. *)

From Stdlib Require Import ZArith List Bool Lia.
From Stdlib Require Import Strings.Byte.
Import ListNotations.
Open Scope Z_scope.

(** ** Go integer conversions *)

Definition wrap_uint64 (z : Z) : Z := z mod 2 ^ 64.
Definition wrap_int64 (z : Z) : Z := (z + 2 ^ 63) mod 2 ^ 64 - 2 ^ 63.
Definition wrap_int32 (z : Z) : Z := (z + 2 ^ 31) mod 2 ^ 32 - 2 ^ 31.

(** [uintptr(x)], [int(x)]: conversions to the 64-bit word types. *)
Definition uintptr (z : Z) : Z := wrap_uint64 z.
Definition int (z : Z) : Z := wrap_int64 z.

(** ** Bytes and the native (little-endian) byte order *)

Definition byte_of_Z (z : Z) : byte :=
  match Byte.of_N (Z.to_N (z mod 256)) with
  | Some b => b
  | None => x00
  end.

Definition Z_of_byte (b : byte) : Z := Z.of_N (Byte.to_N b).

(** [binary.NativeEndian.PutUint64] into a fresh buffer of [n] bytes. *)
Fixpoint le_encode (n : nat) (z : Z) : list byte :=
  match n with
  | O => []
  | S n' => byte_of_Z z :: le_encode n' (z / 256)
  end.

(** [binary.NativeEndian.Uint64]. *)
Fixpoint le_decode (bs : list byte) : Z :=
  match bs with
  | [] => 0
  | b :: bs' => Z_of_byte b + 256 * le_decode bs'
  end.

Definition zeros (n : nat) : list byte := repeat x00 n.

(** What a buffer holds after the kernel has stored [out] at its start:
    the length of the buffer never changes. *)
Definition overlay (out buf : list byte) : list byte :=
  firstn (length buf) out ++ skipn (length out) buf.

(** The slice expression [p[:n]] and the rest of the backing array. *)
Definition slice_to (n : nat) (p : list byte) : list byte := firstn n p.

(** ** errors.go, and the error values of the collaborating packages *)

Inductive error : Type :=
| ErrClosed
| ErrInvalidParam
| ErrInterrupted
| ErrNoMemory
| ErrPermission
| ErrOverflow
| ErrWouldBlock            (* iox.ErrWouldBlock *)
| Errno (e : Z).           (* a raw zcall.Errno *)

(** ** The package zcall *)

(** struct timespec and struct itimerspec (timerfd). *)
Record timespec : Type := { sec : Z; nsec : Z }.
Record itimerspec : Type := { interval : timespec; value : timespec }.

(** The second argument of [Syscall4] is a plain word or the address of a
    buffer the kernel fills. *)
Inductive sysarg : Type :=
| Word (v : Z)
| OutBuf (size : nat).

Inductive call : Type :=
| SysClose (fd : Z)
| SysRead (fd : Z) (len : nat)
| SysWrite (fd : Z) (p : list byte)
| Syscall4 (num a1 : Z) (a2 : sysarg) (a3 a4 : Z)
| Eventfd2 (initval flags : Z)
| TimerfdCreate (clockid flags : Z)
| TimerfdSettime (fd flags : Z) (newValue : itimerspec)
| TimerfdGettime (fd : Z)
| Signalfd4 (fd mask size flags : Z)
| PidfdOpen (pid flags : Z)
| PidfdSendSignal (fd sig : Z)
| PidfdGetfd (fd targetfd flags : Z)
| MemfdCreate (name : list byte) (flags : Z).

(** A reply: the result word, the errno word, and the bytes stored through
    the call's output pointer (empty when it has none). *)
Record reply : Type := { r1 : Z; errno : Z; out : list byte }.

Class Zcall : Type := {
  EAGAIN : Z;
  EBADF : Z;
  EINVAL : Z;
  EINTR : Z;
  ENOMEM : Z;
  EACCES : Z;
  EPERM : Z;
  zSYS_FTRUNCATE : Z;
  zSYS_FSTAT : Z;
  kernel : Type;
  syscall : call -> kernel -> reply * kernel
}.

(** Go's switch over constants does not compile with a repeated case, and
    errno 0 is no error: the table a build can have. *)
Definition errno_table_ok `{Zcall} : Prop :=
  NoDup [0; EAGAIN; EBADF; EINVAL; EINTR; ENOMEM; EACCES; EPERM].

Record World `{Zcall} : Type := { kst : kernel; trace : list call }.

(** ** Kernel interaction as a state monad over the world *)

Definition M `{Zcall} (A : Type) : Type := World -> A * World.

Definition ret `{Zcall} {A : Type} (a : A) : M A := fun w => (a, w).

Definition bind `{Zcall} {A B : Type} (m : M A) (f : A -> M B) : M B :=
  fun w => let (a, w') := m w in f a w'.

Declare Scope io_scope.
Delimit Scope io_scope with io.
Notation "x <- c ;; k" := (bind c (fun x => k))
  (at level 61, c at next level, right associativity) : io_scope.
Notation "' p <- c ;; k" := (bind c (fun x => let p := x in k))
  (at level 61, p pattern, c at next level, right associativity) : io_scope.
Open Scope io_scope.

(** Every raw call: the kernel steps, the call is logged, and the two result
    words come back as [uintptr]s. *)
Definition invoke `{Zcall} (c : call) : M reply :=
  fun w =>
    let (r, k) := syscall c (kst w) in
    ({| r1 := uintptr (r1 r); errno := uintptr (errno r); out := out r |},
     {| kst := k; trace := trace w ++ [c] |}).

(** The wrappers of package zcall, with the result shapes the code uses. *)
Definition zcall_Close `{Zcall} (fd : Z) : M Z :=
  r <- invoke (SysClose fd) ;; ret (errno r).

Definition zcall_Read `{Zcall} (fd : Z) (p : list byte) : M (Z * Z * list byte) :=
  r <- invoke (SysRead fd (length p)) ;; ret (r1 r, errno r, overlay (out r) p).

Definition zcall_Write `{Zcall} (fd : Z) (p : list byte) : M (Z * Z) :=
  r <- invoke (SysWrite fd p) ;; ret (r1 r, errno r).

Definition zcall_Syscall4 `{Zcall} (num a1 a2 a3 a4 : Z) : M (Z * Z) :=
  r <- invoke (Syscall4 num a1 (Word a2) a3 a4) ;; ret (r1 r, errno r).

(** [Syscall4] with the address of a zeroed struct of [size] bytes as its
    second argument; also returns the struct as the kernel left it. *)
Definition zcall_Syscall4_out `{Zcall} (num a1 : Z) (size : nat) (a3 a4 : Z)
  : M (Z * Z * list byte) :=
  r <- invoke (Syscall4 num a1 (OutBuf size) a3 a4) ;;
  ret (r1 r, errno r, overlay (out r) (zeros size)).

(** ** fd.go: the error translator *)

Definition errFromErrno `{Zcall} (errno : Z) : option error :=
  if errno =? 0 then None
  else
    let e := errno in
    if e =? EAGAIN then Some ErrWouldBlock
    else if e =? EBADF then Some ErrClosed
    else if e =? EINVAL then Some ErrInvalidParam
    else if e =? EINTR then Some ErrInterrupted
    else if e =? ENOMEM then Some ErrNoMemory
    else if (e =? EACCES) || (e =? EPERM) then Some ErrPermission
    else Some (Errno e).

(** ** const_linux.go (amd64): the constants of the control calls *)

Definition SYS_FCNTL : Z := 72.
Definition SYS_FTRUNCATE : Z := 77.
Definition SYS_FSTAT : Z := 5.
Definition FD_CLOEXEC : Z := 1.
Definition O_NONBLOCK : Z := 0x800.
Definition O_CLOEXEC : Z := 0x80000.
Definition F_DUPFD : Z := 0.
Definition F_GETFD : Z := 1.
Definition F_SETFD : Z := 2.
Definition F_GETFL : Z := 3.
Definition F_SETFL : Z := 4.
Definition F_DUPFD_CLOEXEC : Z := 1030.

(** ** fd.go: type FD int32 *)

Module FD.

(** The slot: an int32. *)
Definition t : Type := Z.

Definition InvalidFD : t := -1.

Definition NewFD (fd : Z) : t := wrap_int32 fd.

(** [atomic.LoadInt32]. *)
Definition Raw (fd : t) : Z := fd.

Definition Fd (fd : t) : Z := Raw fd.

Definition Valid (fd : t) : bool := Raw fd >=? 0.

(** [atomic.SwapInt32(fd, new)]: the old value and the slot afterwards. *)
Definition SwapInt32 (fd : t) (new : Z) : Z * t := (fd, new).

Definition Close `{Zcall} (fd : t) : M (option error * t) :=
  let (old, fd) := SwapInt32 fd (-1) in
  if old <? 0 then ret (None, fd)
  else
    errno <- zcall_Close (uintptr old) ;;
    if negb (errno =? 0) then ret (errFromErrno errno, fd)
    else ret (None, fd).

(** Returns the count, the error and the buffer as the call left it. *)
Definition Read `{Zcall} (fd : t) (p : list byte) : M (Z * option error * list byte) :=
  if (length p =? 0)%nat then ret (0, None, p)
  else
    let raw := Raw fd in
    if raw <? 0 then ret (0, Some ErrClosed, p)
    else
      '(n, errno, p') <- zcall_Read (uintptr raw) p ;;
      if negb (errno =? 0) then ret (int n, errFromErrno errno, p')
      else ret (int n, None, p').

Definition Write `{Zcall} (fd : t) (p : list byte) : M (Z * option error) :=
  if (length p =? 0)%nat then ret (0, None)
  else
    let raw := Raw fd in
    if raw <? 0 then ret (0, Some ErrClosed)
    else
      '(n, errno) <- zcall_Write (uintptr raw) p ;;
      if negb (errno =? 0) then ret (int n, errFromErrno errno)
      else ret (int n, None).

(** [flags |= bit] and [flags &^= bit] on a uintptr. *)
Definition set_bits (flags bit : Z) : Z := wrap_uint64 (Z.lor flags bit).
Definition clear_bits (flags bit : Z) : Z := wrap_uint64 (Z.ldiff flags bit).

Definition SetNonblock `{Zcall} (fd : t) (nonblock : bool) : M (option error) :=
  let raw := Raw fd in
  if raw <? 0 then ret (Some ErrClosed)
  else
    '(flags, errno) <- zcall_Syscall4 SYS_FCNTL (uintptr raw) F_GETFL 0 0 ;;
    if negb (errno =? 0) then ret (errFromErrno errno)
    else
      let flags := if nonblock then set_bits flags O_NONBLOCK
                   else clear_bits flags O_NONBLOCK in
      '(_, errno) <- zcall_Syscall4 SYS_FCNTL (uintptr raw) F_SETFL flags 0 ;;
      if negb (errno =? 0) then ret (errFromErrno errno)
      else ret None.

Definition SetCloexec `{Zcall} (fd : t) (cloexec : bool) : M (option error) :=
  let raw := Raw fd in
  if raw <? 0 then ret (Some ErrClosed)
  else
    '(flags, errno) <- zcall_Syscall4 SYS_FCNTL (uintptr raw) F_GETFD 0 0 ;;
    if negb (errno =? 0) then ret (errFromErrno errno)
    else
      let flags := if cloexec then set_bits flags FD_CLOEXEC
                   else clear_bits flags FD_CLOEXEC in
      '(_, errno) <- zcall_Syscall4 SYS_FCNTL (uintptr raw) F_SETFD flags 0 ;;
      if negb (errno =? 0) then ret (errFromErrno errno)
      else ret None.

Definition Dup `{Zcall} (fd : t) : M (t * option error) :=
  let raw := Raw fd in
  if raw <? 0 then ret (InvalidFD, Some ErrClosed)
  else
    '(newfd, errno) <- zcall_Syscall4 SYS_FCNTL (uintptr raw) F_DUPFD_CLOEXEC 0 0 ;;
    if negb (errno =? 0) then ret (InvalidFD, errFromErrno errno)
    else ret (wrap_int32 newfd, None).

End FD.

(** ** eventfd.go *)

Definition EFD_SEMAPHORE : Z := 0x1.
Definition EFD_CLOEXEC : Z := 0x80000.
Definition EFD_NONBLOCK : Z := 0x800.

Module EventFD.

Record t : Type := { fd : FD.t }.

Definition newEventFD `{Zcall} (initval flags : Z) : M (option t * option error) :=
  r <- invoke (Eventfd2 (uintptr initval) flags) ;;
  if negb (errno r =? 0) then ret (None, errFromErrno (errno r))
  else ret (Some {| fd := wrap_int32 (r1 r) |}, None).

Definition NewEventFD `{Zcall} (initval : Z) : M (option t * option error) :=
  newEventFD initval (Z.lor EFD_NONBLOCK EFD_CLOEXEC).

Definition NewEventFDSemaphore `{Zcall} (initval : Z) : M (option t * option error) :=
  newEventFD initval (Z.lor (Z.lor EFD_SEMAPHORE EFD_NONBLOCK) EFD_CLOEXEC).

Definition Fd (e : t) : Z := FD.Fd (fd e).

Definition Close `{Zcall} (e : t) : M (option error * t) :=
  '(err, fd') <- FD.Close (fd e) ;; ret (err, {| fd := fd' |}).

Definition Signal `{Zcall} (e : t) (val : Z) : M (option error) :=
  if val =? 0 then ret None
  else
    let raw := FD.Raw (fd e) in
    if raw <? 0 then ret (Some ErrClosed)
    else
      let buf := le_encode 8 val in
      '(n, errno) <- zcall_Write (uintptr raw) buf ;;
      if negb (errno =? 0) then
        if errno =? EAGAIN then ret (Some ErrWouldBlock)
        else ret (errFromErrno errno)
      else if negb (n =? 8) then ret (Some ErrInvalidParam)
      else ret None.

Definition Wait `{Zcall} (e : t) : M (Z * option error) :=
  let raw := FD.Raw (fd e) in
  if raw <? 0 then ret (0, Some ErrClosed)
  else
    let buf := zeros 8 in
    '(n, errno, buf) <- zcall_Read (uintptr raw) buf ;;
    if negb (errno =? 0) then
      if errno =? EAGAIN then ret (0, Some ErrWouldBlock)
      else ret (0, errFromErrno errno)
    else if negb (n =? 8) then ret (0, Some ErrInvalidParam)
    else ret (le_decode buf, None).

Definition Read `{Zcall} (e : t) (p : list byte) : M (Z * option error * list byte) :=
  if (length p <? 8)%nat then ret (0, Some ErrInvalidParam, p)
  else
    let raw := FD.Raw (fd e) in
    if raw <? 0 then ret (0, Some ErrClosed, p)
    else
      '(n, errno, p8) <- zcall_Read (uintptr raw) (slice_to 8 p) ;;
      let p' := p8 ++ skipn 8 p in
      if negb (errno =? 0) then ret (int n, errFromErrno errno, p')
      else ret (int n, None, p').

Definition Write `{Zcall} (e : t) (p : list byte) : M (Z * option error) :=
  if (length p <? 8)%nat then ret (0, Some ErrInvalidParam)
  else
    let raw := FD.Raw (fd e) in
    if raw <? 0 then ret (0, Some ErrClosed)
    else
      '(n, errno) <- zcall_Write (uintptr raw) (slice_to 8 p) ;;
      if negb (errno =? 0) then ret (int n, errFromErrno errno)
      else ret (int n, None).

Definition Value `{Zcall} (e : t) : M (Z * option error) :=
  ret (0, Some ErrInvalidParam).

End EventFD.

(** ** timerfd.go *)

Definition CLOCK_REALTIME : Z := 0.
Definition CLOCK_MONOTONIC : Z := 1.
Definition CLOCK_BOOTTIME : Z := 7.
Definition TFD_CLOEXEC : Z := 0x80000.
Definition TFD_NONBLOCK : Z := 0x800.
Definition TFD_TIMER_ABSTIME : Z := 0x1.

(** Go's [/] and [%] on int64 truncate towards zero. *)
Definition e9 : Z := 1000000000.

(** An int64 field of a struct image, at byte offset [off]. *)
Definition field_int64 (off : nat) (image : list byte) : Z :=
  wrap_int64 (le_decode (firstn 8 (skipn off image))).

Definition field_uint32 (off : nat) (image : list byte) : Z :=
  le_decode (firstn 4 (skipn off image)).

Module TimerFD.

Record t : Type := { fd : FD.t }.

Definition newTimerFD `{Zcall} (clockid flags : Z) : M (option t * option error) :=
  r <- invoke (TimerfdCreate clockid flags) ;;
  if negb (errno r =? 0) then ret (None, errFromErrno (errno r))
  else ret (Some {| fd := wrap_int32 (r1 r) |}, None).

Definition NewTimerFD `{Zcall} : M (option t * option error) :=
  newTimerFD CLOCK_MONOTONIC (Z.lor TFD_NONBLOCK TFD_CLOEXEC).

Definition NewTimerFDRealtime `{Zcall} : M (option t * option error) :=
  newTimerFD CLOCK_REALTIME (Z.lor TFD_NONBLOCK TFD_CLOEXEC).

Definition NewTimerFDBoottime `{Zcall} : M (option t * option error) :=
  newTimerFD CLOCK_BOOTTIME (Z.lor TFD_NONBLOCK TFD_CLOEXEC).

Definition Fd (x : t) : Z := FD.Fd (fd x).

Definition Close `{Zcall} (x : t) : M (option error * t) :=
  '(err, fd') <- FD.Close (fd x) ;; ret (err, {| fd := fd' |}).

Definition Arm `{Zcall} (x : t) (initial interval : Z) : M (option error) :=
  let raw := FD.Raw (fd x) in
  if raw <? 0 then ret (Some ErrClosed)
  else
    let newValue :=
      {| interval := {| sec := Z.quot interval e9; nsec := Z.rem interval e9 |};
         value := {| sec := Z.quot initial e9; nsec := Z.rem initial e9 |} |} in
    r <- invoke (TimerfdSettime (uintptr raw) 0 newValue) ;;
    if negb (errno r =? 0) then ret (errFromErrno (errno r))
    else ret None.

Definition ArmAt `{Zcall} (x : t) (deadline interval : Z) : M (option error) :=
  let raw := FD.Raw (fd x) in
  if raw <? 0 then ret (Some ErrClosed)
  else
    let newValue :=
      {| interval := {| sec := Z.quot interval e9; nsec := Z.rem interval e9 |};
         value := {| sec := Z.quot deadline e9; nsec := Z.rem deadline e9 |} |} in
    r <- invoke (TimerfdSettime (uintptr raw) TFD_TIMER_ABSTIME newValue) ;;
    if negb (errno r =? 0) then ret (errFromErrno (errno r))
    else ret None.

(** [time.Duration] is an int64 count of nanoseconds. *)
Definition ArmDuration `{Zcall} (x : t) (initial interval : Z) : M (option error) :=
  Arm x initial interval.

Definition Disarm `{Zcall} (x : t) : M (option error) :=
  Arm x 0 0.

Definition Read `{Zcall} (x : t) : M (Z * option error) :=
  let raw := FD.Raw (fd x) in
  if raw <? 0 then ret (0, Some ErrClosed)
  else
    let buf := zeros 8 in
    '(n, errno, buf) <- zcall_Read (uintptr raw) buf ;;
    if negb (errno =? 0) then
      if errno =? EAGAIN then ret (0, Some ErrWouldBlock)
      else ret (0, errFromErrno errno)
    else if negb (n =? 8) then ret (0, Some ErrInvalidParam)
    else ret (le_decode buf, None).

Definition ReadInto `{Zcall} (x : t) (buf : list byte) : M (Z * option error * list byte) :=
  if (length buf <? 8)%nat then ret (0, Some ErrInvalidParam, buf)
  else
    let raw := FD.Raw (fd x) in
    if raw <? 0 then ret (0, Some ErrClosed, buf)
    else
      '(n, errno, b8) <- zcall_Read (uintptr raw) (slice_to 8 buf) ;;
      let buf' := b8 ++ skipn 8 buf in
      if negb (errno =? 0) then ret (int n, errFromErrno errno, buf')
      else ret (int n, None, buf').

(** Returns (remaining, interval, err). *)
Definition GetTime `{Zcall} (x : t) : M (Z * Z * option error) :=
  let raw := FD.Raw (fd x) in
  if raw <? 0 then ret (0, 0, Some ErrClosed)
  else
    r <- invoke (TimerfdGettime (uintptr raw)) ;;
    let curr := overlay (out r) (zeros 32) in
    if negb (errno r =? 0) then ret (0, 0, errFromErrno (errno r))
    else
      let remaining := wrap_int64 (field_int64 16 curr * e9 + field_int64 24 curr) in
      let interval := wrap_int64 (field_int64 0 curr * e9 + field_int64 8 curr) in
      ret (remaining, interval, None).

End TimerFD.

(** ** signalfd.go *)

Definition SFD_CLOEXEC : Z := 0x80000.
Definition SFD_NONBLOCK : Z := 0x800.
Definition SIGUSR1 : Z := 10.
Definition SIGTERM : Z := 15.
Definition signalInfoSize : nat := 128.

(** type SigSet uint64: bit N stands for signal N+1. *)
Module SigSet.

Definition t : Type := Z.

(** [1 << (sig - 1)] at type uint64. *)
Definition bit (sig : Z) : Z := wrap_uint64 (Z.shiftl 1 (sig - 1)).

Definition Add (s : t) (sig : Z) : t :=
  if (sig <? 1) || (sig >? 64) then s
  else wrap_uint64 (Z.lor s (bit sig)).

Definition Del (s : t) (sig : Z) : t :=
  if (sig <? 1) || (sig >? 64) then s
  else wrap_uint64 (Z.ldiff s (bit sig)).

Definition Has (s : t) (sig : Z) : bool :=
  if (sig <? 1) || (sig >? 64) then false
  else negb (Z.land s (bit sig) =? 0).

Definition Empty (s : t) : bool := s =? 0.

End SigSet.

(** SignalInfo is read through its 128-byte image; the fields are views of
    the image at the offsets of struct signalfd_siginfo. *)
Module SignalInfo.

Definition t : Type := list byte.

Definition Signo (i : t) : Z := field_uint32 0 i.
Definition Code (i : t) : Z := wrap_int32 (field_uint32 8 i).
Definition PID (i : t) : Z := field_uint32 12 i.
Definition UID (i : t) : Z := field_uint32 16 i.

End SignalInfo.

Module SignalFD.

Record t : Type := { fd : FD.t; mask : SigSet.t }.

Definition newSignalFD `{Zcall} (mask flags : Z) : M (option t * option error) :=
  r <- invoke (Signalfd4 (wrap_uint64 (-1)) mask 8 flags) ;;
  if negb (errno r =? 0) then ret (None, errFromErrno (errno r))
  else ret (Some {| fd := wrap_int32 (r1 r); mask := mask |}, None).

Definition NewSignalFD `{Zcall} (mask : Z) : M (option t * option error) :=
  newSignalFD mask (Z.lor SFD_NONBLOCK SFD_CLOEXEC).

Definition Fd (s : t) : Z := FD.Fd (fd s).

Definition Close `{Zcall} (s : t) : M (option error * t) :=
  '(err, fd') <- FD.Close (fd s) ;; ret (err, {| fd := fd'; mask := mask s |}).

Definition Read `{Zcall} (s : t) : M (option SignalInfo.t * option error) :=
  let raw := FD.Raw (fd s) in
  if raw <? 0 then ret (None, Some ErrClosed)
  else
    let buf := zeros signalInfoSize in
    '(n, errno, info) <- zcall_Read (uintptr raw) buf ;;
    if negb (errno =? 0) then
      if errno =? EAGAIN then ret (None, Some ErrWouldBlock)
      else ret (None, errFromErrno errno)
    else if negb (n =? Z.of_nat signalInfoSize) then ret (None, Some ErrInvalidParam)
    else ret (Some info, None).

Definition ReadInto `{Zcall} (s : t) (buf : list byte) : M (Z * option error * list byte) :=
  if (length buf <? signalInfoSize)%nat then ret (0, Some ErrInvalidParam, buf)
  else
    let raw := FD.Raw (fd s) in
    if raw <? 0 then ret (0, Some ErrClosed, buf)
    else
      '(n, errno, b) <- zcall_Read (uintptr raw) (slice_to signalInfoSize buf) ;;
      let buf' := b ++ skipn signalInfoSize buf in
      if negb (errno =? 0) then ret (int n, errFromErrno errno, buf')
      else ret (int n, None, buf').

Definition SetMask `{Zcall} (s : t) (mask : SigSet.t) : M (option error * t) :=
  let raw := FD.Raw (fd s) in
  if raw <? 0 then ret (Some ErrClosed, s)
  else
    r <- invoke (Signalfd4 (uintptr raw) mask 8 0) ;;
    if negb (errno r =? 0) then ret (errFromErrno (errno r), s)
    else ret (None, {| fd := fd s; mask := mask |}).

Definition Mask (s : t) : SigSet.t := mask s.

End SignalFD.

(** ** pidfd.go *)

Definition PIDFD_NONBLOCK : Z := 0x800.

Module PidFD.

Record t : Type := { fd : FD.t; pid : Z }.

Definition newPidFD `{Zcall} (pid flags : Z) : M (option t * option error) :=
  if pid <=? 0 then ret (None, Some ErrInvalidParam)
  else
    r <- invoke (PidfdOpen (uintptr pid) flags) ;;
    if negb (errno r =? 0) then ret (None, errFromErrno (errno r))
    else ret (Some {| fd := wrap_int32 (r1 r); pid := pid |}, None).

Definition NewPidFD `{Zcall} (pid : Z) : M (option t * option error) :=
  newPidFD pid PIDFD_NONBLOCK.

Definition NewPidFDBlocking `{Zcall} (pid : Z) : M (option t * option error) :=
  newPidFD pid 0.

Definition Fd (p : t) : Z := FD.Fd (fd p).

Definition Close `{Zcall} (p : t) : M (option error * t) :=
  '(err, fd') <- FD.Close (fd p) ;; ret (err, {| fd := fd'; pid := pid p |}).

Definition PID (p : t) : Z := pid p.

Definition SendSignal `{Zcall} (p : t) (sig : Z) : M (option error) :=
  let raw := FD.Raw (fd p) in
  if raw <? 0 then ret (Some ErrClosed)
  else
    r <- invoke (PidfdSendSignal (uintptr raw) (uintptr sig)) ;;
    if negb (errno r =? 0) then ret (errFromErrno (errno r))
    else ret None.

Definition GetFD `{Zcall} (p : t) (targetFD : Z) : M (FD.t * option error) :=
  let raw := FD.Raw (fd p) in
  if raw <? 0 then ret (FD.InvalidFD, Some ErrClosed)
  else
    r <- invoke (PidfdGetfd (uintptr raw) (uintptr targetFD) 0) ;;
    if negb (errno r =? 0) then ret (FD.InvalidFD, errFromErrno (errno r))
    else ret (wrap_int32 (r1 r), None).

Definition Valid (p : t) : bool := FD.Valid (fd p).

End PidFD.

(** ** memfd.go *)

Definition MFD_CLOEXEC : Z := 0x1.
Definition MFD_ALLOW_SEALING : Z := 0x2.
Definition MFD_HUGETLB : Z := 0x4.
Definition F_SEAL_SEAL : Z := 0x1.
Definition F_SEAL_SHRINK : Z := 0x2.
Definition F_SEAL_GROW : Z := 0x4.
Definition F_SEAL_WRITE : Z := 0x8.
Definition F_SEAL_FUTURE_WRITE : Z := 0x10.
Definition F_ADD_SEALS : Z := 1033.
Definition F_GET_SEALS : Z := 1034.

(** statBuf: 48 bytes, st_size, 88 bytes. *)
Definition statBuf_size : nat := 144.

Module MemFD.

Record t : Type := { fd : FD.t; name : list byte }.

Definition newMemFD `{Zcall} (name : list byte) (flags : Z) : M (option t * option error) :=
  let nameBytes := name ++ [x00] in
  r <- invoke (MemfdCreate nameBytes flags) ;;
  if negb (errno r =? 0) then ret (None, errFromErrno (errno r))
  else ret (Some {| fd := wrap_int32 (r1 r); name := name |}, None).

Definition NewMemFD `{Zcall} (name : list byte) : M (option t * option error) :=
  newMemFD name MFD_CLOEXEC.

Definition NewMemFDSealed `{Zcall} (name : list byte) : M (option t * option error) :=
  newMemFD name (Z.lor MFD_CLOEXEC MFD_ALLOW_SEALING).

Definition NewMemFDHugeTLB `{Zcall} (name : list byte) : M (option t * option error) :=
  newMemFD name (Z.lor MFD_CLOEXEC MFD_HUGETLB).

Definition Fd (m : t) : Z := FD.Fd (fd m).

Definition Close `{Zcall} (m : t) : M (option error * t) :=
  '(err, fd') <- FD.Close (fd m) ;; ret (err, {| fd := fd'; name := name m |}).

Definition Name (m : t) : list byte := name m.

Definition Read `{Zcall} (m : t) (p : list byte) : M (Z * option error * list byte) :=
  FD.Read (fd m) p.

Definition Write `{Zcall} (m : t) (p : list byte) : M (Z * option error) :=
  FD.Write (fd m) p.

Definition Truncate `{Zcall} (m : t) (size : Z) : M (option error) :=
  let raw := FD.Raw (fd m) in
  if raw <? 0 then ret (Some ErrClosed)
  else
    '(_, errno) <- zcall_Syscall4 zSYS_FTRUNCATE (uintptr raw) (uintptr size) 0 0 ;;
    if negb (errno =? 0) then ret (errFromErrno errno)
    else ret None.

Definition Size `{Zcall} (m : t) : M (Z * option error) :=
  let raw := FD.Raw (fd m) in
  if raw <? 0 then ret (0, Some ErrClosed)
  else
    '(_, errno, stat) <- zcall_Syscall4_out zSYS_FSTAT (uintptr raw) statBuf_size 0 0 ;;
    if negb (errno =? 0) then ret (0, errFromErrno errno)
    else ret (field_int64 48 stat, None).

Definition Seal `{Zcall} (m : t) (seals : Z) : M (option error) :=
  let raw := FD.Raw (fd m) in
  if raw <? 0 then ret (Some ErrClosed)
  else
    '(_, errno) <- zcall_Syscall4 SYS_FCNTL (uintptr raw) F_ADD_SEALS (uintptr seals) 0 ;;
    if negb (errno =? 0) then ret (errFromErrno errno)
    else ret None.

Definition Seals `{Zcall} (m : t) : M (Z * option error) :=
  let raw := FD.Raw (fd m) in
  if raw <? 0 then ret (0, Some ErrClosed)
  else
    '(seals, errno) <- zcall_Syscall4 SYS_FCNTL (uintptr raw) F_GET_SEALS 0 0 ;;
    if negb (errno =? 0) then ret (0, errFromErrno errno)
    else ret (wrap_uint64 seals, None).

Definition Valid (m : t) : bool := FD.Valid (fd m).

End MemFD.

(** ** Sequences of method calls on one FD *)

Module FDOp.

Inductive t : Type :=
| Raw
| Fd
| Valid
| Close
| Read (p : list byte)
| Write (p : list byte)
| SetNonblock (nonblock : bool)
| SetCloexec (cloexec : bool)
| Dup.

End FDOp.

(** One method call on the slot: what the slot holds afterwards.  Only
    [Close] stores to it; [Dup] hands out a new, independent FD. *)
Definition FD_step `{Zcall} (o : FDOp.t) (fd : FD.t) : M FD.t :=
  match o with
  | FDOp.Raw | FDOp.Fd | FDOp.Valid => ret fd
  | FDOp.Close => '(_, fd') <- FD.Close fd ;; ret fd'
  | FDOp.Read p => _ <- FD.Read fd p ;; ret fd
  | FDOp.Write p => _ <- FD.Write fd p ;; ret fd
  | FDOp.SetNonblock b => _ <- FD.SetNonblock fd b ;; ret fd
  | FDOp.SetCloexec b => _ <- FD.SetCloexec fd b ;; ret fd
  | FDOp.Dup => _ <- FD.Dup fd ;; ret fd
  end.

Fixpoint FD_run `{Zcall} (ops : list FDOp.t) (fd : FD.t) : M FD.t :=
  match ops with
  | [] => ret fd
  | o :: ops' => fd' <- FD_step o fd ;; FD_run ops' fd'
  end.

(** The receiver and the world a mutating method leaves behind. *)
Definition handle_after `{Zcall} {A Hd : Type} (c : A * Hd * World) : Hd := snd (fst c).
Definition world_after `{Zcall} {A : Type} (c : A * World) : World := snd c.
Definition result_of `{Zcall} {A : Type} (c : A * World) : A := fst c.

(** ** A platform to run the model on: Linux errno numbers and a kernel
    that answers from a script, one reply per call, success once it is
    exhausted. *)

Definition reply_ok : reply := {| r1 := 0; errno := 0; out := [] |}.

Definition scripted (c : call) (k : list reply) : reply * list reply :=
  match k with
  | [] => (reply_ok, [])
  | r :: k' => (r, k')
  end.

Definition linux_scripted : Zcall :=
  {| EAGAIN := 11; EBADF := 9; EINVAL := 22; EINTR := 4; ENOMEM := 12;
     EACCES := 13; EPERM := 1;
     zSYS_FTRUNCATE := 77; zSYS_FSTAT := 5;
     kernel := list reply;
     syscall := scripted |}.

Definition world_of (script : list reply) : @World linux_scripted :=
  @Build_World linux_scripted script [].

(** ** Views of the log and of the kernel's records *)

(** The release calls in a log. *)
Definition is_release (c : call) : bool :=
  match c with
  | SysClose _ => true
  | _ => false
  end.

Definition releases (log : list call) : list call := filter is_release log.

(** The ranges of the Go integer types. *)
Definition in_int32 (z : Z) : Prop := - 2 ^ 31 <= z < 2 ^ 31.
Definition in_int64 (z : Z) : Prop := - 2 ^ 63 <= z < 2 ^ 63.
Definition in_uint64 (z : Z) : Prop := 0 <= z < 2 ^ 64.

(** struct timespec and struct itimerspec in memory: sec then nsec, interval
    then value, each field an int64 in native byte order. *)
Definition timespec_image (t : timespec) : list byte :=
  le_encode 8 (sec t) ++ le_encode 8 (nsec t).

Definition itimerspec_image (s : itimerspec) : list byte :=
  timespec_image (interval s) ++ timespec_image (value s).


(** The guard of the SigSet methods, as a test. *)
Definition sig_in_range (sig : Z) : bool := (1 <=? sig) && (sig <=? 64).

(** * Properties *)

Section Facts.
Context `{ZC : Zcall}.

Lemma errFromErrno_nonzero (e : Z) : e <> 0 -> errFromErrno e <> None.
Proof.
  intros He. unfold errFromErrno.
  destruct (Z.eqb_spec e 0) as [E | _]; [contradiction |].
  repeat match goal with
         | |- context [if ?b then _ else _] => destruct b
         end; discriminate.
Qed.

Lemma errFromErrno_zero : errFromErrno 0 = None.
Proof. reflexivity. Qed.

Lemma FD_Close_closed (w : World) :
  FD.Close FD.InvalidFD w = (None, FD.InvalidFD, w).
Proof. reflexivity. Qed.

Lemma FD_Close_slot (fd : FD.t) (w : World) :
  handle_after (FD.Close fd w) = FD.InvalidFD.
Proof.
  unfold FD.Close, FD.SwapInt32, handle_after.
  destruct (fd <? 0); [reflexivity |].
  unfold zcall_Close, bind, invoke, ret.
  destruct (syscall _ _) as [r k]; cbn.
  destruct (negb _); reflexivity.
Qed.

Lemma FD_step_closed (o : FDOp.t) (w : World) :
  fst (FD_step o FD.InvalidFD w) = FD.InvalidFD.
Proof.
  destruct o; cbn; try reflexivity.
  - destruct p; reflexivity.
  - destruct p; reflexivity.
Qed.

Lemma FD_run_closed (ops : list FDOp.t) (w : World) :
  fst (FD_run ops FD.InvalidFD w) = FD.InvalidFD.
Proof.
  revert w. induction ops as [| o ops IH]; intros w; [reflexivity |].
  cbn [FD_run]. unfold bind.
  pose proof (FD_step_closed o w) as Hs.
  destruct (FD_step o FD.InvalidFD w) as [fd' w']. cbn in Hs. subst fd'.
  apply IH.
Qed.

End Facts.

Section Descriptor.
Context `{ZC : Zcall}.

(** C1.  [FD.Close] swaps the slot to -1 and works on the captured prior
    value: a negative prior value (already closed) gives success with no
    kernel call; otherwise exactly one release call is issued on the prior
    value and its errno is translated.  After any [Close] the slot reads -1,
    it still reads -1 after any further sequence of method calls, and a
    [Close] after them returns success and issues no call. *)
Theorem FD_Close_once (fd : FD.t) (w : World) (ops : list FDOp.t) :
  let c := FD.Close fd w in
  let fd1 := handle_after c in
  let r := FD_run ops fd1 (world_after c) in
  (if fd <? 0 then c = (None, FD.InvalidFD, w)
   else c = (let (rp, w') := invoke (SysClose (uintptr fd)) w in
             (errFromErrno (errno rp), FD.InvalidFD, w'))) /\
  FD.Raw fd1 = -1 /\
  FD.Raw (fst r) = -1 /\
  FD.Close (fst r) (snd r) = (None, FD.InvalidFD, snd r).
Proof.
  cbv zeta.
  rewrite FD_Close_slot.
  rewrite FD_run_closed.
  repeat split.
  unfold FD.Close, FD.SwapInt32.
  destruct (fd <? 0); [reflexivity |].
  unfold zcall_Close, bind, invoke, ret.
  destruct (syscall _ _) as [rp k]; cbn.
  destruct (Z.eqb_spec (uintptr (errno rp)) 0) as [E | E]; cbn.
  - rewrite E. reflexivity.
  - reflexivity.
Qed.

End Descriptor.

Section Translator.
Context `{ZC : Zcall}.

Lemma errno_table_distinct :
  errno_table_ok ->
  EAGAIN <> 0 /\
  (EBADF <> 0 /\ EBADF <> EAGAIN) /\
  (EINVAL <> 0 /\ EINVAL <> EAGAIN /\ EINVAL <> EBADF) /\
  (EINTR <> 0 /\ EINTR <> EAGAIN /\ EINTR <> EBADF /\ EINTR <> EINVAL) /\
  (ENOMEM <> 0 /\ ENOMEM <> EAGAIN /\ ENOMEM <> EBADF /\ ENOMEM <> EINVAL /\
   ENOMEM <> EINTR) /\
  (EACCES <> 0 /\ EACCES <> EAGAIN /\ EACCES <> EBADF /\ EACCES <> EINVAL /\
   EACCES <> EINTR /\ EACCES <> ENOMEM) /\
  (EPERM <> 0 /\ EPERM <> EAGAIN /\ EPERM <> EBADF /\ EPERM <> EINVAL /\
   EPERM <> EINTR /\ EPERM <> ENOMEM).
Proof.
  unfold errno_table_ok. intros ok.
  repeat match goal with
         | H : NoDup (_ :: _) |- _ =>
             apply NoDup_cons_iff in H; destruct H as [? H]
         end.
  cbn [In] in *.
  repeat split; intros E; rewrite ?E in *; intuition congruence.
Qed.

(** C3.  The translator is a function of the raw code alone, with the fixed
    table: 0 is success; EAGAIN, EBADF, EINVAL, EINTR, ENOMEM map to
    WouldBlock, Closed, InvalidParameter, Interrupted, OutOfMemory; EACCES
    and EPERM both map to PermissionDenied; every other code comes back as
    the raw errno. *)
Theorem errFromErrno_mapping :
  errno_table_ok ->
  errFromErrno 0 = None /\
  errFromErrno EAGAIN = Some ErrWouldBlock /\
  errFromErrno EBADF = Some ErrClosed /\
  errFromErrno EINVAL = Some ErrInvalidParam /\
  errFromErrno EINTR = Some ErrInterrupted /\
  errFromErrno ENOMEM = Some ErrNoMemory /\
  errFromErrno EACCES = Some ErrPermission /\
  errFromErrno EPERM = Some ErrPermission /\
  (forall e : Z,
      ~ In e [0; EAGAIN; EBADF; EINVAL; EINTR; ENOMEM; EACCES; EPERM] ->
      errFromErrno e = Some (Errno e)).
Proof.
  intros ok. apply errno_table_distinct in ok.
  destruct ok as (A & (B0 & B1) & (C0 & C1 & C2) & (D0 & D1 & D2 & D3) &
                  (F0 & F1 & F2 & F3 & F4) & (G0 & G1 & G2 & G3 & G4 & G5) &
                  (P0 & P1 & P2 & P3 & P4 & P5)).
  unfold errFromErrno.
  repeat match goal with
         | |- _ /\ _ => split
         end;
    try (intros e Hn; cbn [In] in Hn);
    repeat match goal with
           | |- context [?x =? ?y] =>
               destruct (Z.eqb_spec x y); try congruence
           end;
    cbn [orb]; try reflexivity.
  all: exfalso; apply Hn; subst e;
    repeat (first [left; reflexivity | right]).
Qed.

End Translator.

(** The Linux table satisfies the side condition, and there the mapping
    is the one of errno(3). *)
Lemma errFromErrno_mapping_linux :
  @errno_table_ok linux_scripted /\
  @errFromErrno linux_scripted 9 = Some ErrClosed /\
  @errFromErrno linux_scripted 2 = Some (Errno 2).
Proof.
  assert (ok : @errno_table_ok linux_scripted).
  { unfold errno_table_ok. cbn.
    repeat (apply NoDup_cons; [cbn; intuition discriminate |]).
    apply NoDup_nil. }
  split; [exact ok |].
  pose proof (@errFromErrno_mapping linux_scripted ok) as H.
  destruct H as (_ & _ & Hb & _ & _ & _ & _ & _ & Hd).
  split; [exact Hb |].
  apply Hd. cbn. intuition discriminate.
Defined.

Section RecordIO.
Context `{ZC : Zcall}.

(** C4.  On an open EventFD or SignalFD, when the kernel answers the record
    transfer with no error and a count below the record size (8 bytes for
    [EventFD.Signal] and [EventFD.Wait], 128 bytes for [SignalFD.Read]), the
    method returns InvalidParameter and no partial result. *)
Theorem short_transfer_InvalidParam (w : World) :
  (forall (e : EventFD.t) (val : Z),
      0 <= FD.Raw (EventFD.fd e) -> val <> 0 ->
      let rp := result_of
                  (invoke (SysWrite (uintptr (FD.Raw (EventFD.fd e)))
                                    (le_encode 8 val)) w) in
      errno rp = 0 -> r1 rp < 8 ->
      result_of (EventFD.Signal e val w) = Some ErrInvalidParam) /\
  (forall e : EventFD.t,
      0 <= FD.Raw (EventFD.fd e) ->
      let rp := result_of
                  (invoke (SysRead (uintptr (FD.Raw (EventFD.fd e))) 8) w) in
      errno rp = 0 -> r1 rp < 8 ->
      result_of (EventFD.Wait e w) = (0, Some ErrInvalidParam)) /\
  (forall s : SignalFD.t,
      0 <= FD.Raw (SignalFD.fd s) ->
      let rp := result_of
                  (invoke (SysRead (uintptr (FD.Raw (SignalFD.fd s))) 128) w) in
      errno rp = 0 -> r1 rp < 128 ->
      result_of (SignalFD.Read s w) = (None, Some ErrInvalidParam)).
Proof.
  repeat split.
  - intros e val Hraw Hval rp Herr Hn. subst rp.
    unfold EventFD.Signal.
    destruct (Z.eqb_spec val 0) as [E | _]; [contradiction |].
    destruct (Z.ltb_spec (FD.Raw (EventFD.fd e)) 0) as [L | _]; [lia |].
    unfold zcall_Write, bind, ret, result_of in *.
    destruct (invoke _ w) as [rp w']. cbn in *.
    rewrite Herr. cbn.
    destruct (Z.eqb_spec (r1 rp) 8) as [E | _]; [lia | reflexivity].
  - intros e Hraw rp Herr Hn. subst rp.
    unfold EventFD.Wait.
    destruct (Z.ltb_spec (FD.Raw (EventFD.fd e)) 0) as [L | _]; [lia |].
    unfold zcall_Read, bind, ret, result_of in *.
    change (length (zeros 8)) with 8%nat.
    destruct (invoke _ w) as [rp w']. cbn in *.
    rewrite Herr. cbn.
    destruct (Z.eqb_spec (r1 rp) 8) as [E | _]; [lia | reflexivity].
  - intros s Hraw rp Herr Hn. subst rp.
    unfold SignalFD.Read.
    destruct (Z.ltb_spec (FD.Raw (SignalFD.fd s)) 0) as [L | _]; [lia |].
    unfold zcall_Read, bind, ret, result_of in *.
    change (length (zeros signalInfoSize)) with 128%nat.
    destruct (invoke _ w) as [rp w']. cbn in *.
    rewrite Herr. cbn.
    destruct (Z.eqb_spec (r1 rp) 128) as [E | _]; [lia | reflexivity].
Qed.

(** C5.  A buffer shorter than the record (128 bytes for
    [SignalFD.ReadInto], 8 bytes for [TimerFD.ReadInto] and [EventFD.Read])
    is answered with InvalidParameter before the slot is even looked at: the
    world and the buffer are untouched, open handle or closed. *)
Theorem undersized_buffer_InvalidParam (p : list byte) (w : World) :
  (forall s : SignalFD.t,
      (length p < 128)%nat ->
      SignalFD.ReadInto s p w = (0, Some ErrInvalidParam, p, w)) /\
  (forall x : TimerFD.t,
      (length p < 8)%nat ->
      TimerFD.ReadInto x p w = (0, Some ErrInvalidParam, p, w)) /\
  (forall e : EventFD.t,
      (length p < 8)%nat ->
      EventFD.Read e p w = (0, Some ErrInvalidParam, p, w)).
Proof.
  repeat split; intros h Hlen.
  - unfold SignalFD.ReadInto, signalInfoSize.
    destruct (Nat.ltb_spec (length p) 128) as [_ | G]; [reflexivity | lia].
  - unfold TimerFD.ReadInto.
    destruct (Nat.ltb_spec (length p) 8) as [_ | G]; [reflexivity | lia].
  - unfold EventFD.Read.
    destruct (Nat.ltb_spec (length p) 8) as [_ | G]; [reflexivity | lia].
Qed.

(** C6.  [Signal(0)] returns success in every state of the handle and of
    the kernel: no call is issued and the kernel state, the counter with it,
    is the one before. *)
Theorem Signal_zero_noop (e : EventFD.t) (w : World) :
  EventFD.Signal e 0 w = (None, w).
Proof. reflexivity. Qed.

(** C7.  [FD.Read] and [FD.Write] on a zero-length buffer return (0, nil)
    and issue no kernel call, whatever the slot holds. *)
Theorem FD_empty_buffer_noop (fd : FD.t) (p : list byte) (w : World) :
  length p = 0%nat ->
  FD.Read fd p w = (0, None, p, w) /\
  FD.Write fd p w = (0, None, w).
Proof.
  intros Hlen. unfold FD.Read, FD.Write. rewrite Hlen. split; reflexivity.
Qed.

End RecordIO.

Section Timer.
Context `{ZC : Zcall}.

(** C8.  [Disarm] is [Arm(0, 0)]: same result, same world, for every handle
    and every state.  Both answer Closed without a call on a closed handle,
    and otherwise issue the one relative settime call with an all-zero
    itimerspec and translate its errno. *)
Theorem Disarm_is_Arm_zero (x : TimerFD.t) (w : World) :
  TimerFD.Disarm x w = TimerFD.Arm x 0 0 w /\
  TimerFD.Disarm x w =
    (if FD.Raw (TimerFD.fd x) <? 0 then (Some ErrClosed, w)
     else
       let (rp, w') :=
         invoke (TimerfdSettime (uintptr (FD.Raw (TimerFD.fd x))) 0
                   {| interval := {| sec := 0; nsec := 0 |};
                      value := {| sec := 0; nsec := 0 |} |}) w in
       (errFromErrno (errno rp), w')).
Proof.
  split; [reflexivity |].
  unfold TimerFD.Disarm, TimerFD.Arm.
  destruct (FD.Raw (TimerFD.fd x) <? 0); [reflexivity |].
  unfold bind, ret. change (Z.quot 0 e9) with 0. change (Z.rem 0 e9) with 0.
  destruct (invoke _ w) as [rp w'].
  destruct (Z.eqb_spec (errno rp) 0) as [E | E]; cbn.
  - rewrite E. reflexivity.
  - reflexivity.
Qed.

End Timer.

Section SignalSets.

Lemma bit_pow2 (sig : Z) : 1 <= sig <= 64 -> SigSet.bit sig = 2 ^ (sig - 1).
Proof.
  intros H. unfold SigSet.bit, wrap_uint64.
  rewrite Z.shiftl_1_l.
  apply Z.mod_small. split.
  - apply Z.pow_nonneg. lia.
  - apply Z.pow_lt_mono_r; lia.
Qed.

Lemma land_pow2_testbit (s k : Z) :
  0 <= k -> negb (Z.land s (2 ^ k) =? 0) = Z.testbit s k.
Proof.
  intros Hk.
  assert (E : Z.land s (2 ^ k) = if Z.testbit s k then 2 ^ k else 0).
  { apply Z.bits_inj'. intros n Hn.
    rewrite Z.land_spec, Z.pow2_bits_eqb by lia.
    destruct (Z.eqb_spec k n) as [-> | Hd].
    - destruct (Z.testbit s n); cbn.
      + rewrite Z.pow2_bits_true by lia. reflexivity.
      + rewrite Z.bits_0. reflexivity.
    - rewrite andb_false_r.
      destruct (Z.testbit s k).
      + rewrite Z.pow2_bits_false by lia. reflexivity.
      + rewrite Z.bits_0. reflexivity. }
  rewrite E. destruct (Z.testbit s k).
  - assert (0 < 2 ^ k) by (apply Z.pow_pos_nonneg; lia).
    destruct (Z.eqb_spec (2 ^ k) 0); [lia | reflexivity].
  - reflexivity.
Qed.

Lemma Has_testbit (s sig : Z) :
  1 <= sig <= 64 -> SigSet.Has s sig = Z.testbit s (sig - 1).
Proof.
  intros H. unfold SigSet.Has.
  destruct (Z.ltb_spec sig 1); [lia |].
  destruct (Z.gtb_spec sig 64); [lia |]. cbn [orb].
  rewrite bit_pow2 by lia.
  apply land_pow2_testbit. lia.
Qed.

Lemma Has_out_of_range (s sig : Z) :
  sig < 1 \/ 64 < sig -> SigSet.Has s sig = false.
Proof.
  intros H. unfold SigSet.Has.
  destruct (Z.ltb_spec sig 1); [reflexivity |].
  destruct (Z.gtb_spec sig 64); [reflexivity | lia].
Qed.

Lemma Add_testbit (s sig k : Z) :
  1 <= sig <= 64 -> 0 <= k < 64 ->
  Z.testbit (SigSet.Add s sig) k = Z.testbit s k || (k =? sig - 1).
Proof.
  intros H Hk. unfold SigSet.Add.
  destruct (Z.ltb_spec sig 1); [lia |].
  destruct (Z.gtb_spec sig 64); [lia |]. cbn [orb].
  unfold wrap_uint64. rewrite Z.mod_pow2_bits_low by lia.
  rewrite Z.lor_spec, bit_pow2, Z.pow2_bits_eqb by lia.
  rewrite (Z.eqb_sym k). reflexivity.
Qed.

Lemma Del_testbit (s sig k : Z) :
  1 <= sig <= 64 -> 0 <= k < 64 ->
  Z.testbit (SigSet.Del s sig) k = Z.testbit s k && negb (k =? sig - 1).
Proof.
  intros H Hk. unfold SigSet.Del.
  destruct (Z.ltb_spec sig 1); [lia |].
  destruct (Z.gtb_spec sig 64); [lia |]. cbn [orb].
  unfold wrap_uint64. rewrite Z.mod_pow2_bits_low by lia.
  rewrite Z.ldiff_spec, bit_pow2, Z.pow2_bits_eqb by lia.
  rewrite (Z.eqb_sym k). reflexivity.
Qed.

(** C9.  A signal number outside [1, 64] is ignored: [Add] and [Del] return
    the set as it was and [Has] answers false (the three are total, there is
    no error to raise).  For a number inside the range, [Add] makes [Has]
    true and [Del] makes it false, and the answer of [Has] for every other
    number is the one before. *)
Theorem SigSet_membership (s : SigSet.t) (sig : Z) :
  (sig < 1 \/ 64 < sig ->
   SigSet.Add s sig = s /\ SigSet.Del s sig = s /\ SigSet.Has s sig = false) /\
  (1 <= sig <= 64 ->
   SigSet.Has (SigSet.Add s sig) sig = true /\
   SigSet.Has (SigSet.Del s sig) sig = false /\
   forall other : Z,
     other <> sig ->
     SigSet.Has (SigSet.Add s sig) other = SigSet.Has s other /\
     SigSet.Has (SigSet.Del s sig) other = SigSet.Has s other).
Proof.
  split.
  - intros Hout. repeat split.
    + unfold SigSet.Add.
      destruct (Z.ltb_spec sig 1); [reflexivity |].
      destruct (Z.gtb_spec sig 64); [reflexivity | lia].
    + unfold SigSet.Del.
      destruct (Z.ltb_spec sig 1); [reflexivity |].
      destruct (Z.gtb_spec sig 64); [reflexivity | lia].
    + apply Has_out_of_range, Hout.
  - intros Hin. repeat split.
    + rewrite Has_testbit, Add_testbit by lia.
      rewrite Z.eqb_refl. apply orb_true_r.
    + rewrite Has_testbit, Del_testbit by lia.
      rewrite Z.eqb_refl. apply andb_false_r.
    + destruct (Z.lt_ge_cases other 1) as [Lo | Lo];
        [rewrite !Has_out_of_range by lia; reflexivity |].
      destruct (Z.lt_ge_cases 64 other) as [Hi | Hi];
        [rewrite !Has_out_of_range by lia; reflexivity |].
      rewrite !Has_testbit, Add_testbit by lia.
      destruct (Z.eqb_spec (other - 1) (sig - 1)); [lia |].
      apply orb_false_r.
    + destruct (Z.lt_ge_cases other 1) as [Lo | Lo];
        [rewrite !Has_out_of_range by lia; reflexivity |].
      destruct (Z.lt_ge_cases 64 other) as [Hi | Hi];
        [rewrite !Has_out_of_range by lia; reflexivity |].
      rewrite !Has_testbit, Del_testbit by lia.
      destruct (Z.eqb_spec (other - 1) (sig - 1)); [lia |].
      apply andb_true_r.
Qed.

End SignalSets.

Section SignalMask.
Context `{ZC : Zcall}.

(** C10.  [SetMask] stores to the cached mask only after the kernel call has
    succeeded.  If the call fails, the translated error is returned and
    [Mask] answers what it answered before; if it succeeds, [SetMask] returns
    nil and [Mask] answers the new mask; on a closed handle nothing happens
    at all.  In every case the cache holds the old mask or the new one. *)
Theorem SetMask_all_or_nothing (s : SignalFD.t) (mask : SigSet.t) (w : World) :
  let c := SignalFD.SetMask s mask w in
  let err := fst (result_of c) in
  let s' := handle_after c in
  let rp := result_of
              (invoke (Signalfd4 (uintptr (FD.Raw (SignalFD.fd s))) mask 8 0) w) in
  (0 <= FD.Raw (SignalFD.fd s) -> errno rp <> 0 ->
   err = errFromErrno (errno rp) /\ err <> None /\
   SignalFD.Mask s' = SignalFD.Mask s) /\
  (0 <= FD.Raw (SignalFD.fd s) -> errno rp = 0 ->
   err = None /\ SignalFD.Mask s' = mask) /\
  (FD.Raw (SignalFD.fd s) < 0 -> c = (Some ErrClosed, s, w)) /\
  (SignalFD.Mask s' = SignalFD.Mask s \/ SignalFD.Mask s' = mask) /\
  SignalFD.fd s' = SignalFD.fd s.
Proof.
  cbv zeta. unfold SignalFD.SetMask, handle_after, result_of, bind, ret.
  destruct (Z.ltb_spec (FD.Raw (SignalFD.fd s)) 0) as [L | G].
  - cbn. repeat split; try lia; auto.
  - destruct (invoke _ w) as [rp w'].
    destruct (Z.eqb_spec (errno rp) 0) as [E | E]; cbn.
    + repeat split; try lia; try contradiction; auto.
    + repeat split; try lia; try contradiction; auto.
      apply errFromErrno_nonzero, E.
Qed.

End SignalMask.

Section Closed.
Context `{ZC : Zcall}.

Lemma EventFD_Close_slot (e : EventFD.t) (w : World) :
  handle_after (EventFD.Close e w) = {| EventFD.fd := FD.InvalidFD |}.
Proof.
  unfold EventFD.Close, bind, ret.
  pose proof (FD_Close_slot (EventFD.fd e) w) as Hc.
  destruct (FD.Close (EventFD.fd e) w) as [[err fd'] w'].
  unfold handle_after in *. cbn in *. subst fd'. reflexivity.
Qed.

Lemma TimerFD_Close_slot (x : TimerFD.t) (w : World) :
  handle_after (TimerFD.Close x w) = {| TimerFD.fd := FD.InvalidFD |}.
Proof.
  unfold TimerFD.Close, bind, ret.
  pose proof (FD_Close_slot (TimerFD.fd x) w) as Hc.
  destruct (FD.Close (TimerFD.fd x) w) as [[err fd'] w'].
  unfold handle_after in *. cbn in *. subst fd'. reflexivity.
Qed.

Lemma SignalFD_Close_slot (s : SignalFD.t) (w : World) :
  handle_after (SignalFD.Close s w) =
  {| SignalFD.fd := FD.InvalidFD; SignalFD.mask := SignalFD.mask s |}.
Proof.
  unfold SignalFD.Close, bind, ret.
  pose proof (FD_Close_slot (SignalFD.fd s) w) as Hc.
  destruct (FD.Close (SignalFD.fd s) w) as [[err fd'] w'].
  unfold handle_after in *. cbn in *. subst fd'. reflexivity.
Qed.

Lemma PidFD_Close_slot (p : PidFD.t) (w : World) :
  handle_after (PidFD.Close p w) =
  {| PidFD.fd := FD.InvalidFD; PidFD.pid := PidFD.pid p |}.
Proof.
  unfold PidFD.Close, bind, ret.
  pose proof (FD_Close_slot (PidFD.fd p) w) as Hc.
  destruct (FD.Close (PidFD.fd p) w) as [[err fd'] w'].
  unfold handle_after in *. cbn in *. subst fd'. reflexivity.
Qed.

Lemma MemFD_Close_slot (m : MemFD.t) (w : World) :
  handle_after (MemFD.Close m w) =
  {| MemFD.fd := FD.InvalidFD; MemFD.name := MemFD.name m |}.
Proof.
  unfold MemFD.Close, bind, ret.
  pose proof (FD_Close_slot (MemFD.fd m) w) as Hc.
  destruct (FD.Close (MemFD.fd m) w) as [[err fd'] w'].
  unfold handle_after in *. cbn in *. subst fd'. reflexivity.
Qed.

Ltac closed_cases :=
  repeat match goal with
         | |- _ /\ _ => split
         end;
  intros; cbn;
  repeat match goal with
         | |- context [if ?b then _ else _] => destruct b
         end;
  reflexivity.

(** C2, as the code has it.  Once [Close] has returned, every I/O and
    control method of the six handles answers without a kernel call, and the
    answer is Closed unless the method checks an argument before it looks at
    the slot: [EventFD.Signal(0)] and [Read]/[Write] of an empty buffer on FD
    and MemFD succeed, the record-sized [EventFD.Read], [EventFD.Write],
    [TimerFD.ReadInto] and [SignalFD.ReadInto] answer InvalidParameter for a
    buffer below the record size, and [EventFD.Value] always answers
    InvalidParameter. *)
Theorem closed_handle_operations :
  (forall (fd : FD.t) (w : World),
      let c := FD.Close fd w in
      let h := handle_after c in
      let w1 := world_after c in
      (forall p, FD.Read h p w1 =
                 (0, (if (length p =? 0)%nat then None else Some ErrClosed), p, w1)) /\
      (forall p, FD.Write h p w1 =
                 (0, (if (length p =? 0)%nat then None else Some ErrClosed), w1)) /\
      (forall b, FD.SetNonblock h b w1 = (Some ErrClosed, w1)) /\
      (forall b, FD.SetCloexec h b w1 = (Some ErrClosed, w1)) /\
      FD.Dup h w1 = (FD.InvalidFD, Some ErrClosed, w1)) /\
  (forall (e : EventFD.t) (w : World),
      let c := EventFD.Close e w in
      let h := handle_after c in
      let w1 := world_after c in
      (forall val, EventFD.Signal h val w1 =
                   ((if val =? 0 then None else Some ErrClosed), w1)) /\
      EventFD.Wait h w1 = (0, Some ErrClosed, w1) /\
      (forall p, EventFD.Read h p w1 =
                 (0, (if (length p <? 8)%nat then Some ErrInvalidParam
                      else Some ErrClosed), p, w1)) /\
      (forall p, EventFD.Write h p w1 =
                 (0, (if (length p <? 8)%nat then Some ErrInvalidParam
                      else Some ErrClosed), w1)) /\
      EventFD.Value h w1 = (0, Some ErrInvalidParam, w1)) /\
  (forall (x : TimerFD.t) (w : World),
      let c := TimerFD.Close x w in
      let h := handle_after c in
      let w1 := world_after c in
      (forall initial interval,
          TimerFD.Arm h initial interval w1 = (Some ErrClosed, w1)) /\
      (forall deadline interval,
          TimerFD.ArmAt h deadline interval w1 = (Some ErrClosed, w1)) /\
      (forall initial interval,
          TimerFD.ArmDuration h initial interval w1 = (Some ErrClosed, w1)) /\
      TimerFD.Disarm h w1 = (Some ErrClosed, w1) /\
      TimerFD.Read h w1 = (0, Some ErrClosed, w1) /\
      (forall buf, TimerFD.ReadInto h buf w1 =
                   (0, (if (length buf <? 8)%nat then Some ErrInvalidParam
                        else Some ErrClosed), buf, w1)) /\
      TimerFD.GetTime h w1 = (0, 0, Some ErrClosed, w1)) /\
  (forall (s : SignalFD.t) (w : World),
      let c := SignalFD.Close s w in
      let h := handle_after c in
      let w1 := world_after c in
      SignalFD.Read h w1 = (None, Some ErrClosed, w1) /\
      (forall buf, SignalFD.ReadInto h buf w1 =
                   (0, (if (length buf <? 128)%nat then Some ErrInvalidParam
                        else Some ErrClosed), buf, w1)) /\
      (forall mask, SignalFD.SetMask h mask w1 = (Some ErrClosed, h, w1))) /\
  (forall (p : PidFD.t) (w : World),
      let c := PidFD.Close p w in
      let h := handle_after c in
      let w1 := world_after c in
      (forall sig, PidFD.SendSignal h sig w1 = (Some ErrClosed, w1)) /\
      (forall targetFD,
          PidFD.GetFD h targetFD w1 = (FD.InvalidFD, Some ErrClosed, w1))) /\
  (forall (m : MemFD.t) (w : World),
      let c := MemFD.Close m w in
      let h := handle_after c in
      let w1 := world_after c in
      (forall p, MemFD.Read h p w1 =
                 (0, (if (length p =? 0)%nat then None else Some ErrClosed), p, w1)) /\
      (forall p, MemFD.Write h p w1 =
                 (0, (if (length p =? 0)%nat then None else Some ErrClosed), w1)) /\
      (forall size, MemFD.Truncate h size w1 = (Some ErrClosed, w1)) /\
      MemFD.Size h w1 = (0, Some ErrClosed, w1) /\
      (forall seals, MemFD.Seal h seals w1 = (Some ErrClosed, w1)) /\
      MemFD.Seals h w1 = (0, Some ErrClosed, w1)).
Proof.
  split; [| split; [| split; [| split; [| split]]]].
  - intros fd w. cbv zeta. rewrite FD_Close_slot.
    generalize (world_after (FD.Close fd w)). intros w1.
    unfold FD.Read, FD.Write. closed_cases.
  - intros e w. cbv zeta. rewrite EventFD_Close_slot.
    generalize (world_after (EventFD.Close e w)). intros w1.
    unfold EventFD.Signal, EventFD.Read, EventFD.Write. closed_cases.
  - intros x w. cbv zeta. rewrite TimerFD_Close_slot.
    generalize (world_after (TimerFD.Close x w)). intros w1.
    unfold TimerFD.ReadInto. closed_cases.
  - intros s w. cbv zeta. rewrite SignalFD_Close_slot.
    generalize (world_after (SignalFD.Close s w)). intros w1.
    unfold SignalFD.ReadInto, signalInfoSize. closed_cases.
  - intros p w. cbv zeta. rewrite PidFD_Close_slot.
    generalize (world_after (PidFD.Close p w)). intros w1.
    closed_cases.
  - intros m w. cbv zeta. rewrite MemFD_Close_slot.
    generalize (world_after (MemFD.Close m w)). intros w1.
    unfold MemFD.Read, MemFD.Write, FD.Read, FD.Write. closed_cases.
Qed.

End Closed.

(** * Runs on the scripted Linux platform *)

Section Runs.
#[local] Existing Instance linux_scripted.

(** The table of TestErrFromErrno. *)
Example errFromErrno_test_table :
  map errFromErrno [0; 11; 9; 22; 4; 12; 13; 1; 2; 5] =
  [None; Some ErrWouldBlock; Some ErrClosed; Some ErrInvalidParam;
   Some ErrInterrupted; Some ErrNoMemory; Some ErrPermission;
   Some ErrPermission; Some (Errno 2); Some (Errno 5)].
Proof. reflexivity. Qed.

(** TestFD_CloseIdempotent: three closes, one release in the log. *)
Example close_three_times :
  let c1 := FD.Close (FD.NewFD 3) (world_of []) in
  let c2 := FD.Close (handle_after c1) (world_after c1) in
  let c3 := FD.Close (handle_after c2) (world_after c2) in
  map fst [result_of c1; result_of c2; result_of c3] = [None; None; None] /\
  trace (world_after c3) = [SysClose 3].
Proof. split; reflexivity. Qed.

(** A release that the kernel refuses still leaves the slot closed. *)
Example close_refused :
  let c := FD.Close 3 (world_of [{| r1 := 0; errno := 9; out := [] |}]) in
  result_of c = (Some ErrClosed, -1).
Proof. reflexivity. Qed.

(** TestEventFD_SignalOnClosed and TestEventFD_SignalZero; a signal on an
    open handle writes the counter record in native byte order. *)
Example signal_runs :
  result_of (EventFD.Signal {| EventFD.fd := -1 |} 1 (world_of [])) = Some ErrClosed /\
  result_of (EventFD.Signal {| EventFD.fd := 3 |} 0 (world_of [])) = None /\
  EventFD.Signal {| EventFD.fd := 3 |} 258
    (world_of [{| r1 := 8; errno := 0; out := [] |}]) =
  (None, {| kst := [];
            trace := [SysWrite 3 [x02; x01; x00; x00; x00; x00; x00; x00]] |}).
Proof. repeat split; reflexivity. Qed.

(** Wait decodes the record the kernel stored; EAGAIN is WouldBlock. *)
Example wait_runs :
  result_of (EventFD.Wait {| EventFD.fd := 3 |}
               (world_of [{| r1 := 8; errno := 0;
                             out := [x05; x01; x00; x00; x00; x00; x00; x00] |}])) =
  (261, None) /\
  result_of (EventFD.Wait {| EventFD.fd := 3 |}
               (world_of [{| r1 := 0; errno := 11; out := [] |}])) =
  (0, Some ErrWouldBlock).
Proof. split; reflexivity. Qed.

(** Arm splits nanoseconds into the (seconds, nanoseconds) pairs of the
    itimerspec, interval first. *)
Example arm_runs :
  trace (world_after (TimerFD.Arm {| TimerFD.fd := 7 |} 2500000000 10000000
                        (world_of []))) =
  [TimerfdSettime 7 0
     {| interval := {| sec := 0; nsec := 10000000 |};
        value := {| sec := 2; nsec := 500000000 |} |}].
Proof. reflexivity. Qed.

(** TestSigSet_AddDelHas and TestSigSet_OutOfRange. *)
Example sigset_runs :
  let s := SigSet.Add (SigSet.Add 0 SIGUSR1) SIGTERM in
  s = 16896 /\
  SigSet.Has s SIGUSR1 = true /\ SigSet.Has s SIGTERM = true /\
  SigSet.Has s 2 = false /\
  SigSet.Del s SIGUSR1 = 16384 /\
  SigSet.Add (SigSet.Add (SigSet.Add 0 0) 65) (-1) = 0 /\
  SigSet.Has (SigSet.Add 0 64) 64 = true /\
  map (SigSet.Has 18446744073709551615) [0; 65; -1] = [false; false; false].
Proof. repeat split; reflexivity. Qed.

(** C2 as stated fails: on handles that [Close] has just returned from,
    [EventFD.Signal(0)] answers nil, [SignalFD.ReadInto] with a 64-byte
    buffer answers InvalidParameter, and [FD.Read] of an empty buffer
    answers nil; none of them answers Closed. *)
Lemma closed_handle_not_always_Closed :
  (let c := EventFD.Close {| EventFD.fd := 3 |} (world_of []) in
   let err := result_of (EventFD.Signal (handle_after c) 0 (world_after c)) in
   err = None /\ err <> Some ErrClosed) /\
  (let c := SignalFD.Close {| SignalFD.fd := 4; SignalFD.mask := 512 |} (world_of []) in
   let err := snd (fst (result_of
                (SignalFD.ReadInto (handle_after c) (zeros 64) (world_after c)))) in
   err = Some ErrInvalidParam /\ err <> Some ErrClosed) /\
  (let c := FD.Close 5 (world_of []) in
   let err := snd (fst (result_of (FD.Read (handle_after c) [] (world_after c)))) in
   err = None /\ err <> Some ErrClosed).
Proof.
  cbv zeta. repeat split; try reflexivity; vm_compute; discriminate.
Qed.

Lemma short_transfer_InvalidParam_run :
  let short := {| r1 := 3; errno := 0; out := [] |} in
  result_of (EventFD.Signal {| EventFD.fd := 5 |} 1 (world_of [short])) =
    Some ErrInvalidParam /\
  result_of (EventFD.Wait {| EventFD.fd := 5 |} (world_of [short])) =
    (0, Some ErrInvalidParam) /\
  result_of (SignalFD.Read {| SignalFD.fd := 6; SignalFD.mask := 512 |}
               (world_of [short])) =
    (None, Some ErrInvalidParam).
Proof.
  intros short.
  destruct (short_transfer_InvalidParam (world_of [short])) as (H1 & H2 & H3).
  split; [| split].
  - apply H1; vm_compute; congruence.
  - apply H2; vm_compute; congruence.
  - apply H3; vm_compute; congruence.
Defined.

Lemma undersized_buffer_InvalidParam_run :
  SignalFD.ReadInto {| SignalFD.fd := 6; SignalFD.mask := 512 |} (zeros 64)
    (world_of []) = (0, Some ErrInvalidParam, zeros 64, world_of []) /\
  TimerFD.ReadInto {| TimerFD.fd := 7 |} (zeros 4) (world_of []) =
    (0, Some ErrInvalidParam, zeros 4, world_of []) /\
  EventFD.Read {| EventFD.fd := -1 |} (zeros 4) (world_of []) =
    (0, Some ErrInvalidParam, zeros 4, world_of []).
Proof.
  split; [| split].
  - apply (undersized_buffer_InvalidParam (zeros 64) (world_of [])). cbn. lia.
  - apply (undersized_buffer_InvalidParam (zeros 4) (world_of [])). cbn. lia.
  - apply (undersized_buffer_InvalidParam (zeros 4) (world_of [])). cbn. lia.
Defined.

Lemma FD_empty_buffer_noop_run :
  length (@nil byte) = 0%nat /\
  FD.Read 3 [] (world_of []) = (0, None, [], world_of []) /\
  FD.Write 3 [] (world_of []) = (0, None, world_of []).
Proof.
  split; [reflexivity |].
  apply (FD_empty_buffer_noop 3 [] (world_of [])). reflexivity.
Defined.

Lemma SetMask_all_or_nothing_run :
  let s := {| SignalFD.fd := 4; SignalFD.mask := 512 |} in
  let failing := world_of [{| r1 := 0; errno := 22; out := [] |}] in
  SignalFD.Mask (handle_after (SignalFD.SetMask s 16384 failing)) = 512 /\
  SignalFD.Mask (handle_after (SignalFD.SetMask s 16384 (world_of []))) = 16384.
Proof.
  intros s failing. split.
  - apply (SetMask_all_or_nothing s 16384 failing); vm_compute; congruence.
  - apply (SetMask_all_or_nothing s 16384 (world_of [])); vm_compute; congruence.
Defined.

End Runs.

Lemma SigSet_membership_run :
  SigSet.Add 0 65 = 0 /\
  SigSet.Has (SigSet.Add 0 SIGUSR1) SIGUSR1 = true /\
  SigSet.Has (SigSet.Del 512 SIGUSR1) SIGUSR1 = false.
Proof.
  split; [| split].
  - apply (SigSet_membership 0 65). right. reflexivity.
  - apply (SigSet_membership 0 SIGUSR1). unfold SIGUSR1. lia.
  - apply (SigSet_membership 512 SIGUSR1). unfold SIGUSR1. lia.
Defined.

(** * Further properties of the package *)

Section TranslatorFacts.
Context `{ZC : Zcall}.

(** X1.  The translator answers nil for errno 0 only, whatever the errno
    table is; when it hands back a raw errno it is the code it was given;
    and it never produces the counter-overflow error. *)
Theorem errFromErrno_nil_only_for_zero (e : Z) :
  (errFromErrno e = None <-> e = 0) /\
  (forall x : Z, errFromErrno e = Some (Errno x) -> x = e) /\
  errFromErrno e <> Some ErrOverflow.
Proof.
  split; [split |].
  - intros Hn. destruct (Z.eq_dec e 0) as [E | E]; [exact E |].
    exfalso. exact (errFromErrno_nonzero e E Hn).
  - intros ->. reflexivity.
  - unfold errFromErrno. split.
    + intros x.
      repeat match goal with
             | |- context [if ?b then _ else _] => destruct b
             end; intros Hx; try discriminate Hx.
      injection Hx as Hx. symmetry. exact Hx.
    + repeat match goal with
             | |- context [if ?b then _ else _] => destruct b
             end; discriminate.
Qed.

End TranslatorFacts.

Section Int32Slot.

Lemma wrap_int32_range (z : Z) : in_int32 (wrap_int32 z).
Proof.
  unfold in_int32, wrap_int32.
  pose proof (Z.mod_pos_bound (z + 2 ^ 31) (2 ^ 32) eq_refl). lia.
Qed.

Lemma wrap_int32_small (z : Z) : in_int32 z -> wrap_int32 z = z.
Proof.
  unfold in_int32, wrap_int32. intros H.
  rewrite Z.mod_small by lia. lia.
Qed.

(** X3.  [NewFD] keeps a descriptor number that fits an int32 ([Raw], [Fd]
    and [Valid] then speak about that number), and it truncates one that
    does not: numbers 2^32 apart give the same FD, and the slot always holds
    an int32. *)
Theorem NewFD_truncates (fd : Z) :
  in_int32 (FD.Raw (FD.NewFD fd)) /\
  FD.NewFD (fd + 2 ^ 32) = FD.NewFD fd /\
  (in_int32 fd ->
   FD.Raw (FD.NewFD fd) = fd /\ FD.Fd (FD.NewFD fd) = fd /\
   FD.Valid (FD.NewFD fd) = (fd >=? 0)).
Proof.
  split; [apply wrap_int32_range | split].
  - unfold FD.NewFD, wrap_int32.
    replace (fd + 2 ^ 32 + 2 ^ 31) with (fd + 2 ^ 31 + 1 * 2 ^ 32) by lia.
    rewrite Z.mod_add by lia. reflexivity.
  - intros H. unfold FD.Fd, FD.Valid, FD.Raw, FD.NewFD.
    rewrite (wrap_int32_small fd H). repeat split.
Qed.

End Int32Slot.

Lemma NewFD_truncates_run :
  in_int32 7 /\ FD.Raw (FD.NewFD 7) = 7 /\ FD.Valid (FD.NewFD 7) = true /\
  FD.NewFD (7 + 2 ^ 32) = 7.
Proof.
  assert (H7 : in_int32 7) by (unfold in_int32; lia).
  destruct (NewFD_truncates 7) as (_ & Hp & Hs).
  destruct (Hs H7) as (Hr & _ & Hv).
  split; [exact H7 |]. split; [exact Hr |]. split; [exact Hv |].
  rewrite Hp. exact Hr.
Defined.

Section DescriptorLog.
Context `{ZC : Zcall}.

Lemma releases_app (l1 l2 : list call) :
  releases (l1 ++ l2) = releases l1 ++ releases l2.
Proof. apply filter_app. Qed.

(** What one kernel call does to the log. *)
Lemma invoke_trace (c : call) (w : World) :
  trace (snd (invoke c w)) = trace w ++ [c].
Proof.
  unfold invoke. destruct (syscall c (kst w)) as [r k]. reflexivity.
Qed.

Ltac step_io :=
  unfold zcall_Close, zcall_Read, zcall_Write, zcall_Syscall4,
    zcall_Syscall4_out, bind, ret;
  repeat match goal with
         | |- context [invoke ?c ?w] =>
             let rp := fresh "rp" in
             let w' := fresh "w" in
             let E := fresh "E" in
             pose proof (invoke_trace c w) as E;
             destruct (invoke c w) as [rp w']; cbn [fst snd] in E |- *
         end.

Ltac log_io :=
  cbn [fst snd];
  repeat match goal with
         | H : trace ?x = _ |- context [trace ?x] => rewrite H; clear H
         end;
  rewrite <- ?app_assoc; cbn [app].

(** One method call: the log only grows; a release is logged only by
    [Close] on a slot that held a non-negative value, and then the slot is
    closed. *)
Lemma FD_step_log (o : FDOp.t) (fd : FD.t) (w : World) :
  exists l : list call,
    trace (snd (FD_step o fd w)) = trace w ++ l /\
    ((releases l = [] /\
      (fst (FD_step o fd w) = fd \/ (fd < 0 /\ fst (FD_step o fd w) = -1))) \/
     (0 <= fd /\ fst (FD_step o fd w) = -1 /\
      releases l = [SysClose (uintptr fd)])).
Proof.
  destruct o; cbn [FD_step].
  - exists []. cbn. rewrite app_nil_r. auto.
  - exists []. cbn. rewrite app_nil_r. auto.
  - exists []. cbn. rewrite app_nil_r. auto.
  - unfold FD.Close, FD.SwapInt32.
    destruct (Z.ltb_spec fd 0) as [L | G].
    + exists []. cbn. rewrite app_nil_r. auto 10.
    + step_io. exists [SysClose (uintptr fd)].
      destruct (negb (errno rp =? 0)); cbn; split; auto.
  - unfold FD.Read.
    destruct (length p =? 0)%nat; [exists []; cbn; rewrite app_nil_r; auto |].
    destruct (FD.Raw fd <? 0); [exists []; cbn; rewrite app_nil_r; auto |].
    step_io. eexists. destruct (negb _); cbn; split; eauto.
  - unfold FD.Write.
    destruct (length p =? 0)%nat; [exists []; cbn; rewrite app_nil_r; auto |].
    destruct (FD.Raw fd <? 0); [exists []; cbn; rewrite app_nil_r; auto |].
    step_io. eexists. destruct (negb _); cbn; split; eauto.
  - unfold FD.SetNonblock.
    destruct (FD.Raw fd <? 0); [exists []; cbn; rewrite app_nil_r; auto |].
    step_io. destruct (negb (errno rp =? 0)).
    + log_io. eexists. split; eauto.
    + step_io. destruct (negb _); log_io; eexists; split; eauto.
  - unfold FD.SetCloexec.
    destruct (FD.Raw fd <? 0); [exists []; cbn; rewrite app_nil_r; auto |].
    step_io. destruct (negb (errno rp =? 0)).
    + log_io. eexists. split; eauto.
    + step_io. destruct (negb _); log_io; eexists; split; eauto.
  - unfold FD.Dup.
    destruct (FD.Raw fd <? 0); [exists []; cbn; rewrite app_nil_r; auto |].
    step_io. eexists. destruct (negb _); cbn; split; eauto.
Qed.

(** Only [Close] stores to the slot. *)
Lemma FD_step_slot (o : FDOp.t) (fd : FD.t) (w : World) :
  o <> FDOp.Close -> fst (FD_step o fd w) = fd.
Proof.
  intros Ho. destruct o; try congruence; cbn [FD_step]; try reflexivity;
    unfold bind, ret.
  - destruct (FD.Read fd p w) as [a w']. reflexivity.
  - destruct (FD.Write fd p w) as [a w']. reflexivity.
  - destruct (FD.SetNonblock fd nonblock w) as [a w']. reflexivity.
  - destruct (FD.SetCloexec fd cloexec w) as [a w']. reflexivity.
  - destruct (FD.Dup fd w) as [a w']. reflexivity.
Qed.

Lemma FD_run_log_closed (ops : list FDOp.t) (fd : FD.t) (w : World) :
  fd < 0 ->
  exists l : list call,
    trace (snd (FD_run ops fd w)) = trace w ++ l /\ releases l = [].
Proof.
  revert fd w. induction ops as [| o ops IH]; intros fd w Hfd.
  - exists []. cbn. rewrite app_nil_r. auto.
  - cbn [FD_run]. unfold bind.
    destruct (FD_step_log o fd w) as (l1 & Ht & Hc).
    destruct (FD_step o fd w) as [fd1 w1]. cbn [fst snd] in *.
    assert (Hfd1 : fd1 < 0 /\ releases l1 = []).
    { destruct Hc as [(Hr & [-> | (_ & ->)]) | (Hge & _)]; try lia; auto.
      split; [lia | auto]. }
    destruct Hfd1 as (Hfd1 & Hr1).
    destruct (IH fd1 w1 Hfd1) as (l2 & Ht2 & Hr2).
    exists (l1 ++ l2). rewrite Ht2, Ht, <- app_assoc, releases_app, Hr1, Hr2.
    auto.
Qed.

(** X2.  Over any sequence of method calls on one FD the log only grows, and
    the calls added contain at most one release: none when the slot was
    already negative, and otherwise none or the single release of the value
    the slot held at the start.  No other descriptor is ever released and
    none is released twice. *)
Theorem FD_released_at_most_once (ops : list FDOp.t) (fd : FD.t) (w : World) :
  exists l : list call,
    trace (snd (FD_run ops fd w)) = trace w ++ l /\
    (releases l = [] \/
     (0 <= fd /\ In FDOp.Close ops /\ releases l = [SysClose (uintptr fd)])).
Proof.
  revert fd w. induction ops as [| o ops IH]; intros fd w.
  - exists []. cbn. rewrite app_nil_r. auto.
  - cbn [FD_run]. unfold bind.
    destruct (FD_step_log o fd w) as (l1 & Ht & Hc).
    pose proof (FD_step_slot o fd w) as Ho.
    destruct (FD_step o fd w) as [fd1 w1]. cbn [fst snd] in *.
    destruct Hc as [(Hr1 & [-> | (Hneg & ->)]) | (Hge & -> & Hr1)].
    + destruct (IH fd w1) as (l2 & Ht2 & Hc2).
      exists (l1 ++ l2). rewrite Ht2, Ht, <- app_assoc, releases_app, Hr1.
      split; [reflexivity |]. cbn [app].
      destruct Hc2 as [Hr2 | (Hge & Hin & Hr2)]; [left; exact Hr2 |].
      right. repeat split; auto. right. exact Hin.
    + destruct (FD_run_log_closed ops (-1) w1) as (l2 & Ht2 & Hr2); [lia |].
      exists (l1 ++ l2). rewrite Ht2, Ht, <- app_assoc, releases_app, Hr1, Hr2.
      auto.
    + destruct (FD_run_log_closed ops (-1) w1) as (l2 & Ht2 & Hr2); [lia |].
      exists (l1 ++ l2). rewrite Ht2, Ht, <- app_assoc, releases_app, Hr1, Hr2.
      split; [reflexivity |]. right. repeat split; auto.
      left. destruct o; try reflexivity; exfalso;
        assert (Hfd : -1 = fd) by (apply Ho; discriminate); lia.
Qed.

End DescriptorLog.

Section FlagControl.
Context `{ZC : Zcall}.

Lemma wrap_uint64_range (z : Z) : in_uint64 (wrap_uint64 z).
Proof.
  unfold in_uint64, wrap_uint64. apply Z.mod_pos_bound. reflexivity.
Qed.

Lemma set_bits_testbit (flags k i : Z) :
  0 <= k -> 0 <= i < 64 ->
  Z.testbit (FD.set_bits flags (2 ^ k)) i = if i =? k then true else Z.testbit flags i.
Proof.
  intros Hk Hi. unfold FD.set_bits, wrap_uint64.
  rewrite Z.mod_pow2_bits_low by lia.
  rewrite Z.lor_spec, Z.pow2_bits_eqb by lia.
  rewrite (Z.eqb_sym k i). destruct (i =? k); [apply orb_true_r | apply orb_false_r].
Qed.

Lemma clear_bits_testbit (flags k i : Z) :
  0 <= k -> 0 <= i < 64 ->
  Z.testbit (FD.clear_bits flags (2 ^ k)) i = if i =? k then false else Z.testbit flags i.
Proof.
  intros Hk Hi. unfold FD.clear_bits, wrap_uint64.
  rewrite Z.mod_pow2_bits_low by lia.
  rewrite Z.ldiff_spec, Z.pow2_bits_eqb by lia.
  rewrite (Z.eqb_sym k i). destruct (i =? k); [apply andb_false_r | apply andb_true_r].
Qed.

(** The flag word a setter stores: the fetched word with bit [k] forced to
    [on] and every other bit as fetched. *)
Lemma updated_flags_bits (flags k : Z) (on : bool) :
  0 <= k ->
  let flags' := if on then FD.set_bits flags (2 ^ k)
                else FD.clear_bits flags (2 ^ k) in
  in_uint64 flags' /\
  forall i : Z, 0 <= i < 64 ->
    Z.testbit flags' i = if i =? k then on else Z.testbit flags i.
Proof.
  intros Hk. destruct on; cbv zeta; split.
  - apply wrap_uint64_range.
  - intros i Hi. apply set_bits_testbit; assumption.
  - apply wrap_uint64_range.
  - intros i Hi. apply clear_bits_testbit; assumption.
Qed.

(** X4.  [SetNonblock] and [SetCloexec] on an open FD are a
    read-modify-write of one flag.  If fetching the flags fails, the error is
    returned and nothing is stored.  Otherwise exactly one store follows,
    with the fetched word in which the one flag bit (0x800 for O_NONBLOCK,
    0x1 for FD_CLOEXEC) is set to the argument and every other bit is as
    fetched; the result is the translated errno of the store. *)
Theorem flag_read_modify_write (fd : FD.t) (on : bool) (w : World) :
  0 <= FD.Raw fd ->
  let raw := uintptr (FD.Raw fd) in
  (let get := Syscall4 SYS_FCNTL raw (Word F_GETFL) 0 0 in
   let g := result_of (invoke get w) in
   let c := FD.SetNonblock fd on w in
   (errno g <> 0 ->
    result_of c = errFromErrno (errno g) /\
    trace (world_after c) = trace w ++ [get]) /\
   (errno g = 0 ->
    exists flags : Z,
      let set := Syscall4 SYS_FCNTL raw (Word F_SETFL) flags 0 in
      trace (world_after c) = trace w ++ [get; set] /\
      result_of c =
        errFromErrno (errno (result_of (invoke set (world_after (invoke get w))))) /\
      in_uint64 flags /\
      forall i : Z, 0 <= i < 64 ->
        Z.testbit flags i = if i =? 11 then on else Z.testbit (r1 g) i)) /\
  (let get := Syscall4 SYS_FCNTL raw (Word F_GETFD) 0 0 in
   let g := result_of (invoke get w) in
   let c := FD.SetCloexec fd on w in
   (errno g <> 0 ->
    result_of c = errFromErrno (errno g) /\
    trace (world_after c) = trace w ++ [get]) /\
   (errno g = 0 ->
    exists flags : Z,
      let set := Syscall4 SYS_FCNTL raw (Word F_SETFD) flags 0 in
      trace (world_after c) = trace w ++ [get; set] /\
      result_of c =
        errFromErrno (errno (result_of (invoke set (world_after (invoke get w))))) /\
      in_uint64 flags /\
      forall i : Z, 0 <= i < 64 ->
        Z.testbit flags i = if i =? 0 then on else Z.testbit (r1 g) i)).
Proof.
  intros Hraw. cbv zeta. unfold result_of, world_after.
  split.
  - unfold FD.SetNonblock.
    destruct (Z.ltb_spec (FD.Raw fd) 0) as [L | _]; [lia |].
    unfold zcall_Syscall4, bind, ret.
    pose proof (invoke_trace (Syscall4 SYS_FCNTL (uintptr (FD.Raw fd)) (Word F_GETFL) 0 0) w) as E1.
    destruct (invoke _ w) as [g w1]. cbn [fst snd] in *.
    destruct (Z.eqb_spec (errno g) 0) as [Eg | Eg]; cbn [negb]; split;
      intros Hg; try contradiction.
    + pose proof (updated_flags_bits (r1 g) 11 on) as Hu.
      change (2 ^ 11) with O_NONBLOCK in Hu.
      destruct Hu as (Hr & Hb); [lia |].
      exists (if on then FD.set_bits (r1 g) O_NONBLOCK else FD.clear_bits (r1 g) O_NONBLOCK).
      cbv zeta.
      match goal with
      | |- context [invoke ?c w1] =>
          pose proof (invoke_trace c w1) as E2; destruct (invoke c w1) as [s w2]
      end.
      cbn [fst snd] in *.
      destruct (Z.eqb_spec (errno s) 0) as [Es | Es]; cbn [negb fst snd];
        rewrite E2, E1, <- app_assoc;
        (split; [reflexivity |]; split; [| split; [exact Hr | exact Hb]]).
      * rewrite Es. reflexivity.
      * reflexivity.
    + cbn [fst snd]. auto.
  - unfold FD.SetCloexec.
    destruct (Z.ltb_spec (FD.Raw fd) 0) as [L | _]; [lia |].
    unfold zcall_Syscall4, bind, ret.
    pose proof (invoke_trace (Syscall4 SYS_FCNTL (uintptr (FD.Raw fd)) (Word F_GETFD) 0 0) w) as E1.
    destruct (invoke _ w) as [g w1]. cbn [fst snd] in *.
    destruct (Z.eqb_spec (errno g) 0) as [Eg | Eg]; cbn [negb]; split;
      intros Hg; try contradiction.
    + pose proof (updated_flags_bits (r1 g) 0 on) as Hu.
      change (2 ^ 0) with FD_CLOEXEC in Hu.
      destruct Hu as (Hr & Hb); [lia |].
      exists (if on then FD.set_bits (r1 g) FD_CLOEXEC else FD.clear_bits (r1 g) FD_CLOEXEC).
      cbv zeta.
      match goal with
      | |- context [invoke ?c w1] =>
          pose proof (invoke_trace c w1) as E2; destruct (invoke c w1) as [s w2]
      end.
      cbn [fst snd] in *.
      destruct (Z.eqb_spec (errno s) 0) as [Es | Es]; cbn [negb fst snd];
        rewrite E2, E1, <- app_assoc;
        (split; [reflexivity |]; split; [| split; [exact Hr | exact Hb]]).
      * rewrite Es. reflexivity.
      * reflexivity.
    + cbn [fst snd]. auto.
Qed.

End FlagControl.

Section NewDescriptors.
Context `{ZC : Zcall}.

(** X5.  [FD.Dup] and [PidFD.GetFD] never hand out a descriptor together
    with an error: with a non-nil error the FD returned is [InvalidFD].  A
    nil error means the handle was open and the one kernel call (fcntl
    F_DUPFD_CLOEXEC, respectively pidfd_getfd) reported success, and the FD
    returned is the int32 of its result. *)
Theorem duplicate_invalid_on_error (w : World) :
  (forall fd : FD.t,
      let c := FD.Dup fd w in
      let dup := Syscall4 SYS_FCNTL (uintptr (FD.Raw fd)) (Word F_DUPFD_CLOEXEC) 0 0 in
      (snd (result_of c) <> None -> fst (result_of c) = FD.InvalidFD) /\
      (snd (result_of c) = None ->
       0 <= FD.Raw fd /\
       errno (result_of (invoke dup w)) = 0 /\
       fst (result_of c) = wrap_int32 (r1 (result_of (invoke dup w))) /\
       trace (world_after c) = trace w ++ [dup])) /\
  (forall (p : PidFD.t) (targetFD : Z),
      let c := PidFD.GetFD p targetFD w in
      let get := PidfdGetfd (uintptr (FD.Raw (PidFD.fd p))) (uintptr targetFD) 0 in
      (snd (result_of c) <> None -> fst (result_of c) = FD.InvalidFD) /\
      (snd (result_of c) = None ->
       0 <= FD.Raw (PidFD.fd p) /\
       errno (result_of (invoke get w)) = 0 /\
       fst (result_of c) = wrap_int32 (r1 (result_of (invoke get w))) /\
       trace (world_after c) = trace w ++ [get])).
Proof.
  split.
  - intros fd. cbv zeta. unfold result_of, world_after, FD.Dup.
    destruct (Z.ltb_spec (FD.Raw fd) 0) as [L | G].
    + cbn. split; [reflexivity | discriminate].
    + unfold zcall_Syscall4, bind, ret.
      match goal with
      | |- context [invoke ?c w] =>
          pose proof (invoke_trace c w) as E; destruct (invoke c w) as [rp w1]
      end.
      cbn [fst snd] in *.
      destruct (Z.eqb_spec (errno rp) 0) as [Z0 | N0]; cbn [negb fst snd].
      * split; [congruence | auto].
      * split; [reflexivity |]. intros Hn.
        exfalso. exact (errFromErrno_nonzero _ N0 Hn).
  - intros p targetFD. cbv zeta. unfold result_of, world_after, PidFD.GetFD.
    destruct (Z.ltb_spec (FD.Raw (PidFD.fd p)) 0) as [L | G].
    + cbn. split; [reflexivity | discriminate].
    + unfold bind, ret.
      match goal with
      | |- context [invoke ?c w] =>
          pose proof (invoke_trace c w) as E; destruct (invoke c w) as [rp w1]
      end.
      cbn [fst snd] in *.
      destruct (Z.eqb_spec (errno rp) 0) as [Z0 | N0]; cbn [negb fst snd].
      * split; [congruence | auto].
      * split; [reflexivity |]. intros Hn.
        exfalso. exact (errFromErrno_nonzero _ N0 Hn).
Qed.

(** The shape shared by the five constructors: one call, then either the
    translated error or a handle built from the result word. *)
Lemma construct_xor {Hd : Type} (c : call) (mk : Z -> Hd) (w : World) :
  let r := (rp <- invoke c ;;
            if negb (errno rp =? 0) then ret (None, errFromErrno (errno rp))
            else ret (Some (mk (wrap_int32 (r1 rp))), None)) w in
  trace (snd r) = trace w ++ [c] /\
  ((exists h : Hd, fst r = (Some h, None) /\
                   h = mk (wrap_int32 (r1 (fst (invoke c w)))) /\
                   errno (fst (invoke c w)) = 0) \/
   (exists e : error, fst r = (None, Some e) /\ errno (fst (invoke c w)) <> 0)).
Proof.
  cbv zeta. unfold bind, ret.
  pose proof (invoke_trace c w) as E. destruct (invoke c w) as [rp w1].
  cbn [fst snd] in *.
  destruct (Z.eqb_spec (errno rp) 0) as [Z0 | N0]; cbn [negb fst snd].
  - split; [exact E |]. left. eexists. repeat split. exact Z0.
  - split; [exact E |]. right.
    destruct (errFromErrno (errno rp)) as [e |] eqn:He.
    + exists e. auto.
    + exfalso. exact (errFromErrno_nonzero _ N0 He).
Qed.

(** X6.  Every exported constructor issues exactly one creation call, with
    the non-blocking and close-on-exec flags its comment promises, and
    returns either a handle and a nil error or a nil handle and a non-nil
    error, never both and never neither.  A handle returned holds the int32
    of the descriptor the kernel returned and the mask, pid or name it was
    created with. *)
Theorem constructors_handle_xor_error (w : World) :
  (forall initval : Z,
      let create := Eventfd2 (uintptr initval) 0x80800 in
      let r := EventFD.NewEventFD initval w in
      trace (world_after r) = trace w ++ [create] /\
      ((exists h, result_of r = (Some h, None) /\
                  EventFD.fd h = wrap_int32 (r1 (result_of (invoke create w)))) \/
       (exists e, result_of r = (None, Some e)))) /\
  (forall initval : Z,
      let create := Eventfd2 (uintptr initval) 0x80801 in
      let r := EventFD.NewEventFDSemaphore initval w in
      trace (world_after r) = trace w ++ [create] /\
      ((exists h, result_of r = (Some h, None) /\
                  EventFD.fd h = wrap_int32 (r1 (result_of (invoke create w)))) \/
       (exists e, result_of r = (None, Some e)))) /\
  (forall (ctor : M (option TimerFD.t * option error)) (clock : Z),
      In (ctor, clock) [(TimerFD.NewTimerFD, 1); (TimerFD.NewTimerFDRealtime, 0);
                        (TimerFD.NewTimerFDBoottime, 7)] ->
      let create := TimerfdCreate clock 0x80800 in
      let r := ctor w in
      trace (world_after r) = trace w ++ [create] /\
      ((exists h, result_of r = (Some h, None) /\
                  TimerFD.fd h = wrap_int32 (r1 (result_of (invoke create w)))) \/
       (exists e, result_of r = (None, Some e)))) /\
  (forall mask : SigSet.t,
      let create := Signalfd4 (2 ^ 64 - 1) mask 8 0x80800 in
      let r := SignalFD.NewSignalFD mask w in
      trace (world_after r) = trace w ++ [create] /\
      ((exists h, result_of r = (Some h, None) /\
                  SignalFD.fd h = wrap_int32 (r1 (result_of (invoke create w))) /\
                  SignalFD.Mask h = mask) \/
       (exists e, result_of r = (None, Some e)))) /\
  (forall (ctor : list byte -> M (option MemFD.t * option error)) (flags : Z)
          (name : list byte),
      In (ctor, flags) [(MemFD.NewMemFD, 1); (MemFD.NewMemFDSealed, 3);
                        (MemFD.NewMemFDHugeTLB, 5)] ->
      let create := MemfdCreate (name ++ [x00]) flags in
      let r := ctor name w in
      trace (world_after r) = trace w ++ [create] /\
      ((exists h, result_of r = (Some h, None) /\
                  MemFD.fd h = wrap_int32 (r1 (result_of (invoke create w))) /\
                  MemFD.Name h = name) \/
       (exists e, result_of r = (None, Some e)))).
Proof.
  unfold result_of, world_after.
  split; [| split; [| split; [| split]]].
  - intros initval. cbv zeta.
    destruct (construct_xor (Eventfd2 (uintptr initval) 0x80800)
                (fun fd => {| EventFD.fd := fd |}) w)
      as (Ht & [(h & Hr & -> & _) | (e & Hr & _)]).
    + split; [exact Ht |]. left. eexists. split; [exact Hr | reflexivity].
    + split; [exact Ht |]. right. exists e. exact Hr.
  - intros initval. cbv zeta.
    destruct (construct_xor (Eventfd2 (uintptr initval) 0x80801)
                (fun fd => {| EventFD.fd := fd |}) w)
      as (Ht & [(h & Hr & -> & _) | (e & Hr & _)]).
    + split; [exact Ht |]. left. eexists. split; [exact Hr | reflexivity].
    + split; [exact Ht |]. right. exists e. exact Hr.
  - intros ctor clock Hin. cbv zeta.
    assert (Hc : ctor = TimerFD.newTimerFD clock 0x80800).
    { cbn [In] in Hin.
      destruct Hin as [H | [H | [H | []]]]; injection H as <- <-; reflexivity. }
    subst ctor.
    destruct (construct_xor (TimerfdCreate clock 0x80800)
                (fun fd => {| TimerFD.fd := fd |}) w)
      as (Ht & [(h & Hr & -> & _) | (e & Hr & _)]).
    + split; [exact Ht |]. left. eexists. split; [exact Hr | reflexivity].
    + split; [exact Ht |]. right. exists e. exact Hr.
  - intros mask. cbv zeta.
    destruct (construct_xor (Signalfd4 (2 ^ 64 - 1) mask 8 0x80800)
                (fun fd => {| SignalFD.fd := fd; SignalFD.mask := mask |}) w)
      as (Ht & [(h & Hr & -> & _) | (e & Hr & _)]).
    + split; [exact Ht |]. left. eexists. split; [exact Hr | split; reflexivity].
    + split; [exact Ht |]. right. exists e. exact Hr.
  - intros ctor flags name Hin. cbv zeta.
    assert (Hc : ctor = fun n => MemFD.newMemFD n flags).
    { cbn [In] in Hin.
      destruct Hin as [H | [H | [H | []]]]; injection H as <- <-; reflexivity. }
    subst ctor.
    destruct (construct_xor (MemfdCreate (name ++ [x00]) flags)
                (fun fd => {| MemFD.fd := fd; MemFD.name := name |}) w)
      as (Ht & [(h & Hr & -> & _) | (e & Hr & _)]).
    + split; [exact Ht |]. left. eexists. split; [exact Hr | split; reflexivity].
    + split; [exact Ht |]. right. exists e. exact Hr.
Qed.

(** X7.  [NewPidFD] and [NewPidFDBlocking] refuse a pid that is not
    positive with InvalidParameter before any kernel call.  For a positive
    pid one pidfd_open call is issued (with PIDFD_NONBLOCK, respectively no
    flag) and a handle returned reports exactly that pid from [PID], also
    after [Close]. *)
Theorem PidFD_pid_guard (pid : Z) (w : World) :
  (pid <= 0 ->
   PidFD.NewPidFD pid w = (None, Some ErrInvalidParam, w) /\
   PidFD.NewPidFDBlocking pid w = (None, Some ErrInvalidParam, w)) /\
  (0 < pid ->
   forall (ctor : Z -> M (option PidFD.t * option error)) (flags : Z),
     In (ctor, flags) [(PidFD.NewPidFD, 0x800); (PidFD.NewPidFDBlocking, 0)] ->
     let r := ctor pid w in
     trace (world_after r) = trace w ++ [PidfdOpen (uintptr pid) flags] /\
     ((exists h, result_of r = (Some h, None) /\ PidFD.PID h = pid /\
                 forall w', PidFD.PID (handle_after (PidFD.Close h w')) = pid) \/
      (exists e, result_of r = (None, Some e)))).
Proof.
  split.
  - intros Hpid. unfold PidFD.NewPidFD, PidFD.NewPidFDBlocking, PidFD.newPidFD.
    destruct (Z.leb_spec pid 0) as [_ | G]; [split; reflexivity | lia].
  - intros Hpid ctor flags Hin. cbv zeta.
    assert (Hc : ctor = fun p => PidFD.newPidFD p flags).
    { cbn [In] in Hin.
      destruct Hin as [H | [H | []]]; injection H as <- <-; reflexivity. }
    subst ctor. unfold PidFD.newPidFD, result_of, world_after.
    destruct (Z.leb_spec pid 0) as [L | _]; [lia |].
    destruct (construct_xor (PidfdOpen (uintptr pid) flags)
                (fun fd => {| PidFD.fd := fd; PidFD.pid := pid |}) w)
      as (Ht & [(h & Hr & -> & _) | (e & Hr & _)]).
    + split; [exact Ht |]. left. eexists. split; [exact Hr |].
      split; [reflexivity |]. intros w'. 
      unfold PidFD.Close, handle_after, bind, ret.
      destruct (FD.Close _ w') as [[err fd'] w2]. reflexivity.
    + split; [exact Ht |]. right. exists e. exact Hr.
Qed.

End NewDescriptors.

Section Records.
Context `{ZC : Zcall}.

Lemma Z_of_byte_of_Z (z : Z) : Z_of_byte (byte_of_Z z) = z mod 256.
Proof.
  unfold Z_of_byte, byte_of_Z.
  pose proof (Z.mod_pos_bound z 256 eq_refl) as Hb.
  destruct (Byte.of_N (Z.to_N (z mod 256))) as [b |] eqn:E.
  - apply Byte.to_of_N in E. rewrite E. apply Z2N.id. lia.
  - apply Byte.of_N_None_iff in E. lia.
Qed.

Lemma Z_of_byte_range (b : byte) : 0 <= Z_of_byte b < 256.
Proof.
  unfold Z_of_byte. pose proof (Byte.to_N_bounded b). lia.
Qed.

Lemma le_encode_length (n : nat) (z : Z) : length (le_encode n z) = n.
Proof.
  revert z. induction n as [| n IH]; intros z; cbn; [reflexivity |].
  rewrite IH. reflexivity.
Qed.

Lemma le_decode_encode (n : nat) (z : Z) :
  le_decode (le_encode n z) = z mod 256 ^ Z.of_nat n.
Proof.
  revert z. induction n as [| n IH]; intros z.
  - cbn. rewrite Z.mod_1_r. reflexivity.
  - cbn [le_encode le_decode]. rewrite IH, Z_of_byte_of_Z.
    rewrite Nat2Z.inj_succ, Z.pow_succ_r by lia.
    rewrite Z.rem_mul_r; [reflexivity | lia | apply Z.pow_pos_nonneg; lia].
Qed.

Lemma le_decode_range (bs : list byte) :
  0 <= le_decode bs < 256 ^ Z.of_nat (length bs).
Proof.
  induction bs as [| b bs IH].
  - cbn. lia.
  - cbn [le_decode length]. rewrite Nat2Z.inj_succ, Z.pow_succ_r by lia.
    pose proof (Z_of_byte_range b). nia.
Qed.

Lemma overlay_length (o buf : list byte) : length (overlay o buf) = length buf.
Proof.
  unfold overlay. rewrite length_app, length_firstn, length_skipn. lia.
Qed.

Lemma overlay_full (o buf : list byte) :
  length o = length buf -> overlay o buf = o.
Proof.
  intros H. unfold overlay. rewrite <- H, firstn_all, H, skipn_all.
  apply app_nil_r.
Qed.

Lemma decode_uint64 (z : Z) : in_uint64 z -> le_decode (le_encode 8 z) = z.
Proof.
  intros H. rewrite le_decode_encode.
  change (256 ^ Z.of_nat 8) with (2 ^ 64). apply Z.mod_small, H.
Qed.

Lemma decode_int64 (z : Z) :
  in_int64 z -> wrap_int64 (le_decode (le_encode 8 z)) = z.
Proof.
  unfold in_int64, wrap_int64. intros H. rewrite le_decode_encode.
  change (256 ^ Z.of_nat 8) with (2 ^ 64).
  rewrite Z.add_mod_idemp_l by lia.
  rewrite Z.mod_small by lia. lia.
Qed.

(** The EAGAIN case some methods write out is the translator's own. *)
Lemma errFromErrno_EAGAIN (e : Z) :
  e <> 0 -> e = EAGAIN -> errFromErrno e = Some ErrWouldBlock.
Proof.
  intros Hn He. unfold errFromErrno.
  destruct (Z.eqb_spec e 0); [contradiction |].
  destruct (Z.eqb_spec e EAGAIN); [reflexivity | contradiction].
Qed.

(** X8.  The outcomes of [EventFD.Signal].  It returns nil exactly when the
    value is 0 or the handle is open and the kernel accepted the whole
    8-byte record.  On an open handle a non-zero value costs exactly one
    write, never a second attempt, and a kernel error comes back as its
    translation (the EAGAIN case written out in the method agrees with the
    translator). *)
Theorem Signal_outcomes (e : EventFD.t) (val : Z) (w : World) :
  let raw := FD.Raw (EventFD.fd e) in
  let write := SysWrite (uintptr raw) (le_encode 8 val) in
  let rp := result_of (invoke write w) in
  let c := EventFD.Signal e val w in
  (result_of c = None <->
   val = 0 \/ (0 <= raw /\ errno rp = 0 /\ r1 rp = 8)) /\
  (val <> 0 -> 0 <= raw ->
   trace (world_after c) = trace w ++ [write] /\
   (errno rp <> 0 -> result_of c = errFromErrno (errno rp))).
Proof.
  cbv zeta. unfold result_of, world_after, EventFD.Signal.
  destruct (Z.eqb_spec val 0) as [V0 | V1].
  - cbn. split; [tauto | contradiction].
  - destruct (Z.ltb_spec (FD.Raw (EventFD.fd e)) 0) as [L | G].
    + cbn. split; [| lia]. split; [discriminate | intros [? | (? & _)]; lia].
    + unfold zcall_Write, bind, ret.
      match goal with
      | |- context [invoke ?c w] =>
          pose proof (invoke_trace c w) as E; destruct (invoke c w) as [rp w1]
      end.
      cbn [fst snd] in *.
      destruct (Z.eqb_spec (errno rp) 0) as [Z0 | N0]; cbn [negb].
      * destruct (Z.eqb_spec (r1 rp) 8) as [N8 | N8]; cbn [negb fst snd].
        -- split; [tauto | intros _ _; split; [exact E | contradiction]].
        -- split; [| intros _ _; split; [exact E | contradiction]].
           split; [discriminate | intros [? | (_ & _ & ?)]; contradiction].
      * pose proof (errFromErrno_EAGAIN (errno rp) N0) as Hag.
        destruct (Z.eqb_spec (errno rp) EAGAIN) as [Eg | Eg]; cbn [fst snd].
        -- rewrite (Hag Eg).
           split; [| intros _ _; split; [exact E | reflexivity]].
           split; [discriminate | intros [? | (_ & ? & _)]; contradiction].
        -- split; [| intros _ _; split; [exact E | reflexivity]].
           split.
           ++ intros Hn. exfalso. exact (errFromErrno_nonzero _ N0 Hn).
           ++ intros [? | (_ & ? & _)]; contradiction.
Qed.

(** X9.  The record [Signal] writes round-trips through [Wait]: for a
    non-zero uint64 value on an open handle, [Signal] writes one 8-byte
    record, and whenever the kernel later delivers that very record to
    [Wait] (8 bytes, no error), [Wait] returns the value signalled. *)
Theorem Signal_Wait_round_trip (e : EventFD.t) (val : Z) (w w2 : World) :
  0 <= FD.Raw (EventFD.fd e) -> in_uint64 val -> val <> 0 ->
  let raw := uintptr (FD.Raw (EventFD.fd e)) in
  exists record : list byte,
    length record = 8%nat /\
    trace (world_after (EventFD.Signal e val w)) = trace w ++ [SysWrite raw record] /\
    (let rp := result_of (invoke (SysRead raw 8) w2) in
     errno rp = 0 -> r1 rp = 8 -> out rp = record ->
     result_of (EventFD.Wait e w2) = (val, None)).
Proof.
  intros Hraw Hval Hnz. cbv zeta. exists (le_encode 8 val).
  split; [apply le_encode_length | split].
  - unfold world_after, EventFD.Signal.
    destruct (Z.eqb_spec val 0) as [? | _]; [contradiction |].
    destruct (Z.ltb_spec (FD.Raw (EventFD.fd e)) 0) as [L | _]; [lia |].
    unfold zcall_Write, bind, ret.
    match goal with
    | |- context [invoke ?c w] =>
        pose proof (invoke_trace c w) as E; destruct (invoke c w) as [rp w1]
    end.
    cbn [fst snd] in *.
    destruct (negb (errno rp =? 0));
      [destruct (errno rp =? EAGAIN) | destruct (negb (r1 rp =? 8))]; exact E.
  - unfold result_of, EventFD.Wait.
    destruct (Z.ltb_spec (FD.Raw (EventFD.fd e)) 0) as [L | _]; [lia |].
    unfold zcall_Read, bind, ret. change (length (zeros 8)) with 8%nat.
    destruct (invoke _ w2) as [rp w3]. cbn [fst snd].
    intros He Hn Ho. rewrite He, Hn, Ho. cbn [negb Z.eqb Pos.eqb fst].
    rewrite overlay_full by (rewrite le_encode_length; reflexivity).
    rewrite decode_uint64 by exact Hval. reflexivity.
Qed.

End Records.

Section RecordReads.
Context `{ZC : Zcall}.

Lemma decode_record_uint64 (o : list byte) :
  in_uint64 (le_decode (overlay o (zeros 8))).
Proof.
  pose proof (le_decode_range (overlay o (zeros 8))) as H.
  rewrite overlay_length in H. exact H.
Qed.

Ltac read_record :=
  unfold zcall_Read, bind, ret;
  try change (length (zeros 8)) with 8%nat;
  try change (length (zeros signalInfoSize)) with 128%nat;
  match goal with
  | |- context [invoke ?c ?w] =>
      let rp := fresh "rp" in
      let w1 := fresh "w" in
      destruct (invoke c w) as [rp w1];
      cbv beta iota; cbn [fst snd];
      pose proof (errFromErrno_nonzero (errno rp)) as Hnz;
      destruct (Z.eqb_spec (errno rp) 0) as [Z0 | N0]; cbn [negb];
      [ match goal with
        | |- context [r1 rp =? ?n] =>
            destruct (Z.eqb_spec (r1 rp) n) as [N8 | N8]; cbn [negb fst snd]
        end
      | destruct (Z.eqb_spec (errno rp) EAGAIN) as [Eg | Eg]; cbn [fst snd];
        [ match goal with
          | Hn : errno rp <> 0, He : errno rp = EAGAIN |- _ =>
              rewrite (errFromErrno_EAGAIN (errno rp) Hn He)
          end
        | ] ]
  end.

(** X10.  The record reads [EventFD.Wait], [TimerFD.Read] and
    [SignalFD.Read] are all-or-nothing.  With a non-nil error the value is 0
    (the nil pointer for [SignalFD.Read]).  A nil error means the handle was
    open and the kernel delivered, without error, exactly the record size (8
    or 128 bytes); the value is then the decoded record, a uint64, and the
    SignalInfo is a full 128-byte image.  A kernel error on an open handle
    comes back as its translation. *)
Theorem record_reads_all_or_nothing (w : World) :
  (forall e : EventFD.t,
      let raw := FD.Raw (EventFD.fd e) in
      let rp := result_of (invoke (SysRead (uintptr raw) 8) w) in
      let r := result_of (EventFD.Wait e w) in
      (snd r <> None -> fst r = 0) /\
      (snd r = None ->
       0 <= raw /\ errno rp = 0 /\ r1 rp = 8 /\ in_uint64 (fst r) /\
       fst r = le_decode (overlay (out rp) (zeros 8))) /\
      (0 <= raw -> errno rp <> 0 -> snd r = errFromErrno (errno rp))) /\
  (forall x : TimerFD.t,
      let raw := FD.Raw (TimerFD.fd x) in
      let rp := result_of (invoke (SysRead (uintptr raw) 8) w) in
      let r := result_of (TimerFD.Read x w) in
      (snd r <> None -> fst r = 0) /\
      (snd r = None ->
       0 <= raw /\ errno rp = 0 /\ r1 rp = 8 /\ in_uint64 (fst r) /\
       fst r = le_decode (overlay (out rp) (zeros 8))) /\
      (0 <= raw -> errno rp <> 0 -> snd r = errFromErrno (errno rp))) /\
  (forall s : SignalFD.t,
      let raw := FD.Raw (SignalFD.fd s) in
      let rp := result_of (invoke (SysRead (uintptr raw) 128) w) in
      let r := result_of (SignalFD.Read s w) in
      (snd r <> None -> fst r = None) /\
      (snd r = None ->
       0 <= raw /\ errno rp = 0 /\ r1 rp = 128 /\
       exists info : SignalInfo.t,
         fst r = Some info /\ length info = 128%nat /\
         info = overlay (out rp) (zeros 128)) /\
      (0 <= raw -> errno rp <> 0 -> snd r = errFromErrno (errno rp))).
Proof.
  unfold result_of. split; [| split].
  - intros e. cbv zeta. unfold EventFD.Wait.
    destruct (Z.ltb_spec (FD.Raw (EventFD.fd e)) 0) as [L | G].
    + cbn. repeat split; intros; try discriminate; lia.
    + read_record.
      * pose proof (decode_record_uint64 (out rp)) as Hu.
        repeat split; intros; try congruence; try assumption; apply Hu.
      * repeat split; intros; congruence.
      * repeat split; intros; congruence.
      * repeat split; intros; try congruence; exfalso; eapply Hnz; eassumption.
  - intros x. cbv zeta. unfold TimerFD.Read.
    destruct (Z.ltb_spec (FD.Raw (TimerFD.fd x)) 0) as [L | G].
    + cbn. repeat split; intros; try discriminate; lia.
    + read_record.
      * pose proof (decode_record_uint64 (out rp)) as Hu.
        repeat split; intros; try congruence; try assumption; apply Hu.
      * repeat split; intros; congruence.
      * repeat split; intros; congruence.
      * repeat split; intros; try congruence; exfalso; eapply Hnz; eassumption.
  - intros s. cbv zeta. unfold SignalFD.Read.
    destruct (Z.ltb_spec (FD.Raw (SignalFD.fd s)) 0) as [L | G].
    + cbn. repeat split; intros; try discriminate; lia.
    + change (Z.of_nat signalInfoSize) with 128. read_record.
      * split; [congruence |]. split; [| congruence].
        intros _. repeat split; try assumption.
        eexists. split; [reflexivity |]. split; [| reflexivity].
        rewrite overlay_length. reflexivity.
      * repeat split; intros; congruence.
      * repeat split; intros; congruence.
      * repeat split; intros; try congruence; exfalso; eapply Hnz; eassumption.
Qed.

Lemma skipn_prefix (n : nat) (a b : list byte) :
  length a = n -> skipn n (a ++ b) = b.
Proof.
  intros <-. rewrite skipn_app, skipn_all, Nat.sub_diag. reflexivity.
Qed.

Lemma record_buffer_kept (n : nat) (o p : list byte) :
  (n <= length p)%nat ->
  let p' := overlay o (slice_to n p) ++ skipn n p in
  length p' = length p /\ skipn n p' = skipn n p.
Proof.
  intros Hn. cbv zeta.
  assert (Hl : length (overlay o (slice_to n p)) = n).
  { rewrite overlay_length. unfold slice_to. apply firstn_length_le, Hn. }
  split.
  - rewrite length_app, Hl, length_skipn. lia.
  - apply skipn_prefix, Hl.
Qed.

Ltac read_into n :=
  match goal with
  | |- context [Nat.ltb (length ?p) ?m] =>
      destruct (Nat.ltb_spec (length p) m) as [Hs | Hs]
  end;
  [cbn; split; reflexivity |];
  match goal with
  | |- context [FD.Raw ?fd <? 0] => destruct (FD.Raw fd <? 0)
  end;
  [cbn; split; reflexivity |];
  unfold zcall_Read, bind, ret;
  match goal with
  | |- context [invoke ?c ?w] =>
      let rp := fresh "rp" in
      let w1 := fresh "w" in
      destruct (invoke c w) as [rp w1];
      cbv beta iota; cbn [fst snd];
      match goal with
      | Hle : (_ <= length ?p)%nat |- context [overlay ?o (slice_to _ ?p)] =>
          pose proof (record_buffer_kept n o p Hle) as Hk
      end;
      destruct (negb (errno rp =? 0)); cbn [fst snd]; assumption
  end.

(** X11.  The buffer variants write to the record prefix only: after
    [EventFD.Read] and [TimerFD.ReadInto] the buffer has its old length and
    its bytes from offset 8 on are untouched, after [SignalFD.ReadInto] the
    same from offset 128 on, whatever the kernel answers and whatever the
    outcome. *)
Theorem buffer_variants_touch_record_only (p : list byte) (w : World) :
  (forall e : EventFD.t,
      let p' := snd (result_of (EventFD.Read e p w)) in
      length p' = length p /\ skipn 8 p' = skipn 8 p) /\
  (forall x : TimerFD.t,
      let p' := snd (result_of (TimerFD.ReadInto x p w)) in
      length p' = length p /\ skipn 8 p' = skipn 8 p) /\
  (forall s : SignalFD.t,
      let p' := snd (result_of (SignalFD.ReadInto s p w)) in
      length p' = length p /\ skipn 128 p' = skipn 128 p).
Proof.
  unfold result_of. split; [| split].
  - intros e. cbv zeta. unfold EventFD.Read. read_into 8%nat.
  - intros x. cbv zeta. unfold TimerFD.ReadInto. read_into 8%nat.
  - intros s. cbv zeta. unfold SignalFD.ReadInto, signalInfoSize.
    read_into 128%nat.
Qed.

End RecordReads.

Section TimerRecords.
Context `{ZC : Zcall}.

Lemma wrap_int64_small (z : Z) : in_int64 z -> wrap_int64 z = z.
Proof.
  unfold in_int64, wrap_int64. intros H. rewrite Z.mod_small by lia. lia.
Qed.

(** An int64 field read back from the image it was stored in. *)
Lemma field_int64_stored (off : nat) (pre post : list byte) (z : Z) :
  length pre = off -> in_int64 z ->
  field_int64 off (pre ++ le_encode 8 z ++ post) = z.
Proof.
  intros Hl Hz. unfold field_int64. subst off.
  rewrite skipn_app, skipn_all, Nat.sub_diag. cbn [skipn app].
  rewrite firstn_app, le_encode_length, Nat.sub_diag, firstn_O, app_nil_r.
  rewrite firstn_all2 by (rewrite le_encode_length; apply Nat.le_refl).
  apply decode_int64, Hz.
Qed.

(** Go's truncated division by 10^9 splits a count of nanoseconds into
    fields that add up to it and have its sign. *)
Lemma split_ns (ns : Z) :
  Z.quot ns e9 * e9 + Z.rem ns e9 = ns /\
  (0 <= ns -> 0 <= Z.quot ns e9 /\ 0 <= Z.rem ns e9 < e9) /\
  (ns < 0 -> Z.quot ns e9 <= 0 /\ - e9 < Z.rem ns e9 <= 0).
Proof.
  pose proof (Z.quot_rem' ns e9) as Hq.
  assert (He : 0 < e9) by reflexivity.
  split; [lia | split].
  - intros Hn. pose proof (Z.rem_bound_pos ns e9 Hn He).
    pose proof (Z.quot_pos ns e9 Hn He). lia.
  - intros Hn. pose proof (Z.rem_bound_pos_neg ns e9 He ltac:(lia)).
    pose proof (Z.quot_le_mono ns 0 e9 He ltac:(lia)) as Hm.
    rewrite Z.quot_0_l in Hm by lia. lia.
Qed.

Lemma split_ns_int64 (ns : Z) :
  in_int64 ns -> in_int64 (Z.quot ns e9) /\ in_int64 (Z.rem ns e9).
Proof.
  unfold in_int64. intros H.
  destruct (split_ns ns) as (Hs & Hp & Hn).
  assert (He : e9 = 1000000000) by reflexivity.
  destruct (Z.lt_ge_cases ns 0) as [L | G].
  - destruct (Hn L). split; nia.
  - destruct (Hp G). split; nia.
Qed.

Lemma Arm_trace (x : TimerFD.t) (initial interval : Z) (w : World) :
  0 <= FD.Raw (TimerFD.fd x) ->
  trace (world_after (TimerFD.Arm x initial interval w)) =
  trace w ++ [TimerfdSettime (uintptr (FD.Raw (TimerFD.fd x))) 0
                {| interval := {| sec := Z.quot interval e9; nsec := Z.rem interval e9 |};
                   value := {| sec := Z.quot initial e9; nsec := Z.rem initial e9 |} |}].
Proof.
  intros Hraw. unfold world_after, TimerFD.Arm.
  destruct (Z.ltb_spec (FD.Raw (TimerFD.fd x)) 0) as [L | _]; [lia |].
  unfold bind, ret.
  match goal with
  | |- context [invoke ?c w] =>
      pose proof (invoke_trace c w) as E; destruct (invoke c w) as [rp w1]
  end.
  cbn [fst snd] in *. destruct (negb (errno rp =? 0)); exact E.
Qed.

(** X12.  On an open handle [Arm] and [ArmAt] issue one settime call each,
    with the same itimerspec and flag 0 (relative) respectively
    TFD_TIMER_ABSTIME.  Each (sec, nsec) pair adds up to the nanosecond
    argument it was split from; a non-negative argument gives a normalised
    timespec (0 <= nsec < 10^9), a negative one gives non-positive fields. *)
Theorem Arm_splits_nanoseconds (x : TimerFD.t) (first_ns period_ns : Z) (w : World) :
  0 <= FD.Raw (TimerFD.fd x) ->
  exists spec : itimerspec,
    trace (world_after (TimerFD.Arm x first_ns period_ns w)) =
      trace w ++ [TimerfdSettime (uintptr (FD.Raw (TimerFD.fd x))) 0 spec] /\
    trace (world_after (TimerFD.ArmAt x first_ns period_ns w)) =
      trace w ++ [TimerfdSettime (uintptr (FD.Raw (TimerFD.fd x)))
                    TFD_TIMER_ABSTIME spec] /\
    sec (value spec) * e9 + nsec (value spec) = first_ns /\
    sec (interval spec) * e9 + nsec (interval spec) = period_ns /\
    (0 <= first_ns -> 0 <= sec (value spec) /\ 0 <= nsec (value spec) < e9) /\
    (0 <= period_ns ->
     0 <= sec (interval spec) /\ 0 <= nsec (interval spec) < e9) /\
    (first_ns < 0 -> sec (value spec) <= 0 /\ - e9 < nsec (value spec) <= 0).
Proof.
  intros Hraw. eexists. split; [apply Arm_trace, Hraw | split].
  - unfold world_after, TimerFD.ArmAt.
    destruct (Z.ltb_spec (FD.Raw (TimerFD.fd x)) 0) as [L | _]; [lia |].
    unfold bind, ret.
    match goal with
    | |- context [invoke ?c w] =>
        pose proof (invoke_trace c w) as E; destruct (invoke c w) as [rp w1]
    end.
    cbn [fst snd] in *. destruct (negb (errno rp =? 0)); exact E.
  - cbn [value interval sec nsec].
    destruct (split_ns first_ns) as (H1 & H2 & H3).
    destruct (split_ns period_ns) as (H4 & H5 & _).
    repeat split; try apply H2; try apply H3; try apply H5; assumption.
Qed.

(** X13.  The itimerspec [Arm] stores round-trips through [GetTime]: for
    int64 arguments on an open handle, whenever the kernel reports back the
    very itimerspec that [Arm] passed (32 bytes, interval first, no error),
    [GetTime] returns the two nanosecond arguments of [Arm]. *)
Theorem Arm_GetTime_round_trip (x : TimerFD.t) (first_ns period_ns : Z)
        (w w2 : World) :
  0 <= FD.Raw (TimerFD.fd x) -> in_int64 first_ns -> in_int64 period_ns ->
  exists spec : itimerspec,
    trace (world_after (TimerFD.Arm x first_ns period_ns w)) =
      trace w ++ [TimerfdSettime (uintptr (FD.Raw (TimerFD.fd x))) 0 spec] /\
    (let rp := result_of
                 (invoke (TimerfdGettime (uintptr (FD.Raw (TimerFD.fd x)))) w2) in
     errno rp = 0 -> out rp = itimerspec_image spec ->
     result_of (TimerFD.GetTime x w2) = (first_ns, period_ns, None)).
Proof.
  intros Hraw Hf Hp. eexists. split; [apply Arm_trace, Hraw |].
  cbv zeta. unfold result_of, TimerFD.GetTime.
  destruct (Z.ltb_spec (FD.Raw (TimerFD.fd x)) 0) as [L | _]; [lia |].
  unfold bind, ret. destruct (invoke _ w2) as [rp w3]. cbn [fst snd].
  intros He Ho. rewrite He, Ho. cbn [negb Z.eqb fst].
  destruct (split_ns_int64 first_ns Hf) as (Hfs & Hfn).
  destruct (split_ns_int64 period_ns Hp) as (Hps & Hpn).
  rewrite overlay_full
    by (unfold itimerspec_image, timespec_image;
        rewrite !length_app, !le_encode_length; reflexivity).
  unfold itimerspec_image, timespec_image. cbn [value interval sec nsec].
  set (a := le_encode 8 (Z.quot period_ns e9)).
  set (b := le_encode 8 (Z.rem period_ns e9)).
  set (c := le_encode 8 (Z.quot first_ns e9)).
  set (d := le_encode 8 (Z.rem first_ns e9)).
  assert (Ha : length a = 8%nat) by apply le_encode_length.
  assert (Hb : length b = 8%nat) by apply le_encode_length.
  assert (Hc : length c = 8%nat) by apply le_encode_length.
  assert (F0 : field_int64 0 ((a ++ b) ++ c ++ d) = Z.quot period_ns e9).
  { replace ((a ++ b) ++ c ++ d) with ([] ++ a ++ (b ++ c ++ d))
      by (cbn [app]; rewrite <- app_assoc; reflexivity).
    apply field_int64_stored; [reflexivity | exact Hps]. }
  assert (F8 : field_int64 8 ((a ++ b) ++ c ++ d) = Z.rem period_ns e9).
  { replace ((a ++ b) ++ c ++ d) with (a ++ b ++ (c ++ d))
      by (rewrite <- app_assoc; reflexivity).
    apply field_int64_stored; [exact Ha | exact Hpn]. }
  assert (F16 : field_int64 16 ((a ++ b) ++ c ++ d) = Z.quot first_ns e9).
  { apply field_int64_stored; [rewrite length_app, Ha, Hb; reflexivity | exact Hfs]. }
  assert (F24 : field_int64 24 ((a ++ b) ++ c ++ d) = Z.rem first_ns e9).
  { replace ((a ++ b) ++ c ++ d) with (((a ++ b) ++ c) ++ d ++ [])
      by (rewrite app_nil_r, <- !app_assoc; reflexivity).
    apply field_int64_stored; [rewrite !length_app, Ha, Hb, Hc; reflexivity | exact Hfn]. }
  rewrite F0, F8, F16, F24.
  destruct (split_ns first_ns) as (H1 & _).
  destruct (split_ns period_ns) as (H2 & _).
  rewrite H1, H2, !wrap_int64_small by assumption. reflexivity.
Qed.

End TimerRecords.

Section MemoryFile.
Context `{ZC : Zcall}.


End MemoryFile.

Section SignalSetLaws.

Lemma uint64_ext (s t : Z) :
  in_uint64 s -> in_uint64 t ->
  (forall k : Z, 0 <= k < 64 -> Z.testbit s k = Z.testbit t k) -> s = t.
Proof.
  unfold in_uint64. intros Hs Ht Hb.
  apply Z.bits_inj'. intros n Hn.
  destruct (Z.lt_ge_cases n 64) as [L | G]; [apply Hb; lia |].
  rewrite <- (Z.mod_small s (2 ^ 64)), <- (Z.mod_small t (2 ^ 64)) by lia.
  rewrite !Z.mod_pow2_bits_high by lia. reflexivity.
Qed.

Lemma Add_range (s a : Z) : in_uint64 s -> in_uint64 (SigSet.Add s a).
Proof.
  intros Hs. unfold SigSet.Add.
  destruct ((a <? 1) || (a >? 64)); [exact Hs | apply wrap_uint64_range].
Qed.

Lemma Del_range (s a : Z) : in_uint64 s -> in_uint64 (SigSet.Del s a).
Proof.
  intros Hs. unfold SigSet.Del.
  destruct ((a <? 1) || (a >? 64)); [exact Hs | apply wrap_uint64_range].
Qed.

(** The bits of a set after [Add] and [Del], in range or not. *)
Lemma Add_bits (s a k : Z) :
  0 <= k < 64 ->
  Z.testbit (SigSet.Add s a) k = Z.testbit s k || (sig_in_range a && (k =? a - 1)).
Proof.
  intros Hk. unfold sig_in_range.
  destruct (Z.leb_spec 1 a) as [L1 | L1]; destruct (Z.leb_spec a 64) as [L2 | L2];
    cbn [andb];
    try (rewrite orb_false_r; unfold SigSet.Add;
         destruct (Z.ltb_spec a 1); destruct (Z.gtb_spec a 64);
         cbn [orb]; try reflexivity; lia).
  apply Add_testbit; lia.
Qed.

Lemma Del_bits (s a k : Z) :
  0 <= k < 64 ->
  Z.testbit (SigSet.Del s a) k =
  Z.testbit s k && negb (sig_in_range a && (k =? a - 1)).
Proof.
  intros Hk. unfold sig_in_range.
  destruct (Z.leb_spec 1 a) as [L1 | L1]; destruct (Z.leb_spec a 64) as [L2 | L2];
    cbn [andb negb];
    try (rewrite andb_true_r; unfold SigSet.Del;
         destruct (Z.ltb_spec a 1); destruct (Z.gtb_spec a 64);
         cbn [orb]; try reflexivity; lia).
  apply Del_testbit; lia.
Qed.

Lemma Has_bits (s a : Z) :
  SigSet.Has s a = sig_in_range a && Z.testbit s (a - 1).
Proof.
  unfold sig_in_range.
  destruct (Z.leb_spec 1 a) as [L1 | L1]; destruct (Z.leb_spec a 64) as [L2 | L2];
    cbn [andb]; try (apply Has_out_of_range; lia).
  apply Has_testbit. lia.
Qed.

Ltac sigset_bits :=
  apply uint64_ext; auto using Add_range, Del_range;
  let k := fresh "k" in
  let Hk := fresh "Hk" in
  intros k Hk;
  repeat first [rewrite Add_bits by exact Hk | rewrite Del_bits by exact Hk];
  repeat match goal with
         | |- context [Z.testbit ?s k] => destruct (Z.testbit s k)
         | |- context [sig_in_range ?a] => destruct (sig_in_range a)
         | |- context [k =? ?x] => destruct (Z.eqb_spec k x)
         end;
  cbn [andb orb negb]; try reflexivity; try lia.

(** X14.  A uint64 SigSet is exactly its membership: two sets on which
    [Has] agrees for every signal number are equal, and [Empty] holds
    exactly when [Has] is false for every signal number. *)
Theorem SigSet_determined_by_members (s t : SigSet.t) :
  in_uint64 s -> in_uint64 t ->
  ((forall sig : Z, SigSet.Has s sig = SigSet.Has t sig) <-> s = t) /\
  (SigSet.Empty s = true <-> forall sig : Z, SigSet.Has s sig = false).
Proof.
  intros Hs Ht.
  assert (Hbit : forall u k, 0 <= k < 64 -> Z.testbit u k = SigSet.Has u (k + 1)).
  { intros u k Hk. rewrite Has_bits. unfold sig_in_range.
    destruct (Z.leb_spec 1 (k + 1)); [| lia].
    destruct (Z.leb_spec (k + 1) 64); [| lia].
    cbn [andb]. f_equal. lia. }
  split; split.
  - intros H. apply uint64_ext; try assumption.
    intros k Hk. rewrite !Hbit by exact Hk. apply H.
  - intros ->. reflexivity.
  - unfold SigSet.Empty. intros He sig.
    apply Z.eqb_eq in He. subst s. rewrite Has_bits, Z.bits_0.
    apply andb_false_r.
  - intros H. unfold SigSet.Empty. apply Z.eqb_eq.
    apply uint64_ext; [exact Hs | unfold in_uint64; lia |].
    intros k Hk. rewrite Hbit, Z.bits_0 by exact Hk. apply H.
Qed.

(** X15.  [Add] and [Del] on a uint64 SigSet stay within uint64, are
    idempotent, commute with themselves and (for different numbers) with
    each other, and undo each other: [Del] after [Add] restores a set that
    did not have the signal, [Add] after [Del] one that had it. *)
Theorem SigSet_Add_Del_laws (s : SigSet.t) (a b : Z) :
  in_uint64 s ->
  (in_uint64 (SigSet.Add s a) /\ in_uint64 (SigSet.Del s a)) /\
  (SigSet.Add (SigSet.Add s a) a = SigSet.Add s a /\
   SigSet.Del (SigSet.Del s a) a = SigSet.Del s a) /\
  (SigSet.Add (SigSet.Add s a) b = SigSet.Add (SigSet.Add s b) a /\
   SigSet.Del (SigSet.Del s a) b = SigSet.Del (SigSet.Del s b) a) /\
  (a <> b -> SigSet.Del (SigSet.Add s a) b = SigSet.Add (SigSet.Del s b) a) /\
  (SigSet.Has s a = false -> SigSet.Del (SigSet.Add s a) a = s) /\
  (SigSet.Has s a = true -> SigSet.Add (SigSet.Del s a) a = s).
Proof.
  intros Hs.
  split; [split; [apply Add_range | apply Del_range]; exact Hs |].
  split; [split; sigset_bits |].
  split; [split; sigset_bits |].
  split; [intros Hab; sigset_bits |].
  split.
  - rewrite Has_bits. intros Hh. apply uint64_ext; auto using Add_range, Del_range.
    intros k Hk. rewrite Del_bits, Add_bits by exact Hk.
    destruct (sig_in_range a); cbn [andb] in *;
      [| rewrite orb_false_r; apply andb_true_r].
    destruct (Z.eqb_spec k (a - 1)) as [-> | _]; cbn [negb].
    + rewrite Hh. reflexivity.
    + rewrite orb_false_r. apply andb_true_r.
  - rewrite Has_bits. intros Hh. apply uint64_ext; auto using Add_range, Del_range.
    intros k Hk. rewrite Add_bits, Del_bits by exact Hk.
    destruct (sig_in_range a); cbn [andb] in *; [| discriminate].
    destruct (Z.eqb_spec k (a - 1)) as [-> | _]; cbn [negb].
    + rewrite Hh. reflexivity.
    + rewrite andb_true_r. apply orb_false_r.
Qed.

End SignalSetLaws.

Section OpenDescriptor.
Context `{ZC : Zcall}.

(** X16.  [FD.Read] and [FD.Write] on an open FD with a non-empty buffer
    issue exactly one kernel call on the descriptor, for the whole buffer,
    and never retry.  The count returned is the kernel's (as an int) also
    when there is an error, the error is nil exactly when the kernel reported
    none, and [Read] leaves the buffer at its length. *)
Theorem FD_Read_Write_outcomes (fd : FD.t) (p : list byte) (w : World) :
  0 <= FD.Raw fd -> p <> [] ->
  let raw := uintptr (FD.Raw fd) in
  (let rd := SysRead raw (length p) in
   let rp := result_of (invoke rd w) in
   let c := FD.Read fd p w in
   trace (world_after c) = trace w ++ [rd] /\
   result_of c = (int (r1 rp), errFromErrno (errno rp), overlay (out rp) p) /\
   (snd (fst (result_of c)) = None <-> errno rp = 0) /\
   length (snd (result_of c)) = length p) /\
  (let wr := SysWrite raw p in
   let rp := result_of (invoke wr w) in
   let c := FD.Write fd p w in
   trace (world_after c) = trace w ++ [wr] /\
   result_of c = (int (r1 rp), errFromErrno (errno rp)) /\
   (snd (result_of c) = None <-> errno rp = 0)).
Proof.
  intros Hraw Hp. cbv zeta. unfold result_of, world_after.
  assert (Hlen : (length p =? 0)%nat = false).
  { destruct p; [contradiction | reflexivity]. }
  split.
  - unfold FD.Read. rewrite Hlen.
    destruct (Z.ltb_spec (FD.Raw fd) 0) as [L | _]; [lia |].
    unfold zcall_Read, bind, ret.
    match goal with
    | |- context [invoke ?c w] =>
        pose proof (invoke_trace c w) as E; destruct (invoke c w) as [rp w1]
    end.
    cbv beta iota. cbn [fst snd] in *.
    pose proof (errFromErrno_nonzero (errno rp)) as Hnz.
    destruct (Z.eqb_spec (errno rp) 0) as [Z0 | N0]; cbn [negb fst snd].
    + rewrite Z0. repeat split; auto. apply overlay_length.
    + repeat split; auto; try apply overlay_length; intros; try contradiction;
        exfalso; eapply Hnz; eassumption.
  - unfold FD.Write. rewrite Hlen.
    destruct (Z.ltb_spec (FD.Raw fd) 0) as [L | _]; [lia |].
    unfold zcall_Write, bind, ret.
    match goal with
    | |- context [invoke ?c w] =>
        pose proof (invoke_trace c w) as E; destruct (invoke c w) as [rp w1]
    end.
    cbv beta iota. cbn [fst snd] in *.
    pose proof (errFromErrno_nonzero (errno rp)) as Hnz.
    destruct (Z.eqb_spec (errno rp) 0) as [Z0 | N0]; cbn [negb fst snd].
    + rewrite Z0. repeat split; auto.
    + repeat split; auto; intros; try contradiction;
        exfalso; eapply Hnz; eassumption.
Qed.

(** X17.  [Close] of each specialised handle is [FD.Close] of its
    descriptor: same error, same kernel interaction.  Afterwards [Fd]
    reports -1, [Valid] (where the handle has it) reports false, the other
    fields (mask, pid, name) are as before, and a second [Close] returns nil
    without a kernel call and changes nothing. *)
Theorem wrapper_Close_delegates (w : World) :
  (forall e : EventFD.t,
      let c := EventFD.Close e w in
      let f := FD.Close (EventFD.fd e) w in
      fst (result_of c) = fst (result_of f) /\ world_after c = world_after f /\
      EventFD.Fd (handle_after c) = -1 /\
      EventFD.Close (handle_after c) (world_after c) =
        (None, handle_after c, world_after c)) /\
  (forall x : TimerFD.t,
      let c := TimerFD.Close x w in
      let f := FD.Close (TimerFD.fd x) w in
      fst (result_of c) = fst (result_of f) /\ world_after c = world_after f /\
      TimerFD.Fd (handle_after c) = -1 /\
      TimerFD.Close (handle_after c) (world_after c) =
        (None, handle_after c, world_after c)) /\
  (forall s : SignalFD.t,
      let c := SignalFD.Close s w in
      let f := FD.Close (SignalFD.fd s) w in
      fst (result_of c) = fst (result_of f) /\ world_after c = world_after f /\
      SignalFD.Fd (handle_after c) = -1 /\
      SignalFD.Mask (handle_after c) = SignalFD.Mask s /\
      SignalFD.Close (handle_after c) (world_after c) =
        (None, handle_after c, world_after c)) /\
  (forall p : PidFD.t,
      let c := PidFD.Close p w in
      let f := FD.Close (PidFD.fd p) w in
      fst (result_of c) = fst (result_of f) /\ world_after c = world_after f /\
      PidFD.Fd (handle_after c) = -1 /\
      PidFD.Valid (handle_after c) = false /\
      PidFD.PID (handle_after c) = PidFD.PID p /\
      PidFD.Close (handle_after c) (world_after c) =
        (None, handle_after c, world_after c)) /\
  (forall m : MemFD.t,
      let c := MemFD.Close m w in
      let f := FD.Close (MemFD.fd m) w in
      fst (result_of c) = fst (result_of f) /\ world_after c = world_after f /\
      MemFD.Fd (handle_after c) = -1 /\
      MemFD.Valid (handle_after c) = false /\
      MemFD.Name (handle_after c) = MemFD.Name m /\
      MemFD.Close (handle_after c) (world_after c) =
        (None, handle_after c, world_after c)).
Proof.
  split; [| split; [| split; [| split]]].
  - intros e. cbv zeta. rewrite EventFD_Close_slot.
    unfold EventFD.Close, result_of, world_after, bind, ret.
    destruct (FD.Close (EventFD.fd e) w) as [[err fd'] w1].
    repeat split.
  - intros x. cbv zeta. rewrite TimerFD_Close_slot.
    unfold TimerFD.Close, result_of, world_after, bind, ret.
    destruct (FD.Close (TimerFD.fd x) w) as [[err fd'] w1].
    repeat split.
  - intros s. cbv zeta. rewrite SignalFD_Close_slot.
    unfold SignalFD.Close, result_of, world_after, bind, ret.
    destruct (FD.Close (SignalFD.fd s) w) as [[err fd'] w1].
    repeat split.
  - intros p. cbv zeta. rewrite PidFD_Close_slot.
    unfold PidFD.Close, result_of, world_after, bind, ret.
    destruct (FD.Close (PidFD.fd p) w) as [[err fd'] w1].
    repeat split.
  - intros m. cbv zeta. rewrite MemFD_Close_slot.
    unfold MemFD.Close, result_of, world_after, bind, ret.
    destruct (FD.Close (MemFD.fd m) w) as [[err fd'] w1].
    repeat split.
Qed.

End OpenDescriptor.

Section ControlCalls.
Context `{ZC : Zcall}.

Lemma nil_iff_errno_zero (e : Z) : errFromErrno e = None <-> e = 0.
Proof.
  split.
  - intros Hn. destruct (Z.eq_dec e 0) as [E | E]; [exact E |].
    exfalso. exact (errFromErrno_nonzero e E Hn).
  - intros ->. reflexivity.
Qed.

(** The result word of a call is a uintptr. *)
Lemma invoke_word (c : call) (w : World) : in_uint64 (r1 (fst (invoke c w))).
Proof.
  unfold invoke. destruct (syscall c (kst w)) as [r k]. cbn.
  apply wrap_uint64_range.
Qed.

Ltac one_call :=
  unfold zcall_Syscall4, bind, ret;
  match goal with
  | |- context [invoke ?c ?w] =>
      let rp := fresh "rp" in
      let w1 := fresh "w" in
      let E := fresh "E" in
      pose proof (invoke_trace c w) as E;
      destruct (invoke c w) as [rp w1];
      cbv beta iota; cbn [fst snd] in E |- *;
      destruct (Z.eqb_spec (errno rp) 0) as [Z0 | N0]; cbn [negb fst snd];
      [ rewrite Z0 | ];
      (split; [exact E |]); (split; [reflexivity |])
  end.

(** X19.  The control methods [PidFD.SendSignal], [MemFD.Truncate],
    [MemFD.Seal] and [MemFD.Seals] on an open handle issue exactly one kernel
    call on the handle's descriptor, with the argument converted to a
    uintptr, and surface its verdict: the error is the translated errno, nil
    exactly when the kernel reported none.  [Seals] returns the kernel's
    result word on success and 0 with an error. *)
Theorem control_calls_surface_errors (w : World) :
  (forall (p : PidFD.t) (sig : Z),
      0 <= FD.Raw (PidFD.fd p) ->
      let k := PidfdSendSignal (uintptr (FD.Raw (PidFD.fd p))) (uintptr sig) in
      let rp := result_of (invoke k w) in
      let c := PidFD.SendSignal p sig w in
      trace (world_after c) = trace w ++ [k] /\
      result_of c = errFromErrno (errno rp) /\
      (result_of c = None <-> errno rp = 0)) /\
  (forall (m : MemFD.t) (size : Z),
      0 <= FD.Raw (MemFD.fd m) ->
      let k := Syscall4 zSYS_FTRUNCATE (uintptr (FD.Raw (MemFD.fd m)))
                 (Word (uintptr size)) 0 0 in
      let rp := result_of (invoke k w) in
      let c := MemFD.Truncate m size w in
      trace (world_after c) = trace w ++ [k] /\
      result_of c = errFromErrno (errno rp) /\
      (result_of c = None <-> errno rp = 0)) /\
  (forall (m : MemFD.t) (seals : Z),
      0 <= FD.Raw (MemFD.fd m) ->
      let k := Syscall4 SYS_FCNTL (uintptr (FD.Raw (MemFD.fd m)))
                 (Word F_ADD_SEALS) (uintptr seals) 0 in
      let rp := result_of (invoke k w) in
      let c := MemFD.Seal m seals w in
      trace (world_after c) = trace w ++ [k] /\
      result_of c = errFromErrno (errno rp) /\
      (result_of c = None <-> errno rp = 0)) /\
  (forall m : MemFD.t,
      0 <= FD.Raw (MemFD.fd m) ->
      let k := Syscall4 SYS_FCNTL (uintptr (FD.Raw (MemFD.fd m)))
                 (Word F_GET_SEALS) 0 0 in
      let rp := result_of (invoke k w) in
      let c := MemFD.Seals m w in
      trace (world_after c) = trace w ++ [k] /\
      result_of c = ((if errno rp =? 0 then r1 rp else 0), errFromErrno (errno rp)) /\
      (snd (result_of c) = None <-> errno rp = 0)).
Proof.
  unfold result_of, world_after. split; [| split; [| split]].
  - intros p sig Hraw. cbv zeta. unfold PidFD.SendSignal.
    destruct (Z.ltb_spec (FD.Raw (PidFD.fd p)) 0) as [L | _]; [lia |].
    one_call.
    + split; reflexivity.
    + apply nil_iff_errno_zero.
  - intros m size Hraw. cbv zeta. unfold MemFD.Truncate.
    destruct (Z.ltb_spec (FD.Raw (MemFD.fd m)) 0) as [L | _]; [lia |].
    one_call.
    + split; reflexivity.
    + apply nil_iff_errno_zero.
  - intros m seals Hraw. cbv zeta. unfold MemFD.Seal.
    destruct (Z.ltb_spec (FD.Raw (MemFD.fd m)) 0) as [L | _]; [lia |].
    one_call.
    + split; reflexivity.
    + apply nil_iff_errno_zero.
  - intros m Hraw. cbv zeta. unfold MemFD.Seals.
    destruct (Z.ltb_spec (FD.Raw (MemFD.fd m)) 0) as [L | _]; [lia |].
    unfold zcall_Syscall4, bind, ret.
    match goal with
    | |- context [invoke ?c w] =>
        pose proof (invoke_trace c w) as E;
        pose proof (invoke_word c w) as Hr;
        destruct (invoke c w) as [rp w1]
    end.
    cbv beta iota. cbn [fst snd] in *.
    destruct (Z.eqb_spec (errno rp) 0) as [Z0 | N0]; cbn [negb fst snd].
    + split; [exact E |].
      unfold wrap_uint64. rewrite Z.mod_small by exact Hr. rewrite Z0.
      split; [reflexivity | split; reflexivity].
    + split; [exact E |]. split; [reflexivity |]. apply nil_iff_errno_zero.
Qed.

End ControlCalls.

(** * Further runs on the scripted Linux platform *)

Section MoreRuns.
#[local] Existing Instance linux_scripted.

Lemma flag_read_modify_write_run :
  let w := world_of [{| r1 := 2; errno := 0; out := [] |}] in
  0 <= FD.Raw 3 /\
  exists flags : Z,
    trace (world_after (FD.SetNonblock 3 true w)) =
      [Syscall4 SYS_FCNTL 3 (Word F_GETFL) 0 0;
       Syscall4 SYS_FCNTL 3 (Word F_SETFL) flags 0] /\
    Z.testbit flags 11 = true /\ Z.testbit flags 1 = true.
Proof.
  intros w.
  assert (H : 0 <= FD.Raw 3) by (vm_compute; discriminate).
  split; [exact H |].
  destruct (flag_read_modify_write 3 true w H) as ((_ & Hok) & _).
  destruct (Hok eq_refl) as (flags & Ht & _ & _ & Hb).
  exists flags. split; [exact Ht |]. split.
  - apply (Hb 11). lia.
  - rewrite (Hb 1) by lia. reflexivity.
Defined.

Lemma duplicate_invalid_on_error_run :
  fst (result_of (FD.Dup 3 (world_of [{| r1 := 0; errno := 24; out := [] |}]))) =
  FD.InvalidFD.
Proof.
  apply (duplicate_invalid_on_error
           (world_of [{| r1 := 0; errno := 24; out := [] |}])).
  vm_compute. discriminate.
Defined.

Lemma PidFD_pid_guard_run :
  PidFD.NewPidFD 0 (world_of []) = (None, Some ErrInvalidParam, world_of []).
Proof.
  apply (PidFD_pid_guard 0 (world_of [])). lia.
Defined.

Lemma Signal_outcomes_run :
  let w := world_of [{| r1 := 0; errno := 11; out := [] |}] in
  result_of (EventFD.Signal {| EventFD.fd := 3 |} 1 w) = Some ErrWouldBlock.
Proof.
  intros w.
  destruct (Signal_outcomes {| EventFD.fd := 3 |} 1 w) as (_ & H).
  destruct H as (_ & He); [lia | vm_compute; discriminate |].
  apply He. vm_compute. discriminate.
Defined.

Lemma Signal_Wait_round_trip_run :
  let e := {| EventFD.fd := 3 |} in
  let w2 := world_of [{| r1 := 8; errno := 0; out := le_encode 8 258 |}] in
  in_uint64 258 /\ result_of (EventFD.Wait e w2) = (258, None).
Proof.
  intros e w2.
  assert (Hu : in_uint64 258) by (unfold in_uint64; lia).
  split; [exact Hu |].
  destruct (Signal_Wait_round_trip e 258 (world_of []) w2) as (rec & _ & Ht & Hw);
    [vm_compute; discriminate | exact Hu | lia |].
  vm_compute in Ht. injection Ht as <-.
  apply Hw; reflexivity.
Defined.

Lemma record_reads_all_or_nothing_run :
  fst (result_of (EventFD.Wait {| EventFD.fd := 3 |}
                    (world_of [{| r1 := 8; errno := 4; out := [x07] |}]))) = 0.
Proof.
  apply (record_reads_all_or_nothing
           (world_of [{| r1 := 8; errno := 4; out := [x07] |}])).
  vm_compute. discriminate.
Defined.

Lemma Arm_splits_nanoseconds_run :
  0 <= FD.Raw (TimerFD.fd {| TimerFD.fd := 7 |}) /\
  exists spec : itimerspec,
    trace (world_after (TimerFD.Arm {| TimerFD.fd := 7 |} 2500000000 10000000
                          (world_of []))) =
      [TimerfdSettime 7 0 spec] /\
    sec (value spec) * e9 + nsec (value spec) = 2500000000 /\
    0 <= nsec (value spec) < e9.
Proof.
  assert (H : 0 <= FD.Raw (TimerFD.fd {| TimerFD.fd := 7 |})) by (vm_compute; discriminate).
  split; [exact H |].
  destruct (Arm_splits_nanoseconds {| TimerFD.fd := 7 |} 2500000000 10000000
              (world_of []) H) as (spec & Ht & _ & Hv & _ & Hn & _).
  exists spec. split; [exact Ht |]. split; [exact Hv |].
  apply Hn. lia.
Defined.

Lemma Arm_GetTime_round_trip_run :
  let x := {| TimerFD.fd := 7 |} in
  let spec := {| interval := {| sec := 0; nsec := 10000000 |};
                 value := {| sec := 2; nsec := 500000000 |} |} in
  let w2 := world_of [{| r1 := 0; errno := 0; out := itimerspec_image spec |}] in
  in_int64 2500000000 /\ in_int64 10000000 /\
  result_of (TimerFD.GetTime x w2) = (2500000000, 10000000, None).
Proof.
  intros x spec w2.
  assert (H1 : in_int64 2500000000) by (unfold in_int64; lia).
  assert (H2 : in_int64 10000000) by (unfold in_int64; lia).
  split; [exact H1 |]. split; [exact H2 |].
  destruct (Arm_GetTime_round_trip x 2500000000 10000000 (world_of []) w2)
    as (sp & Ht & Hg); [vm_compute; discriminate | exact H1 | exact H2 |].
  vm_compute in Ht. injection Ht as <-.
  apply Hg; reflexivity.
Defined.


Lemma FD_Read_Write_outcomes_run :
  let w := world_of [{| r1 := 1; errno := 0; out := [x41] |}] in
  result_of (FD.Read 3 [x00; x00] w) = (1, None, [x41; x00]) /\
  result_of (FD.Write 3 [x00; x00] w) = (1, None).
Proof.
  intros w.
  destruct (FD_Read_Write_outcomes 3 [x00; x00] w) as ((_ & Hr & _) & (_ & Hw & _));
    [vm_compute; discriminate | discriminate |].
  split; [exact Hr | exact Hw].
Defined.

Lemma control_calls_surface_errors_run :
  let w := world_of [{| r1 := 0; errno := 3; out := [] |}] in
  result_of (PidFD.SendSignal {| PidFD.fd := 9; PidFD.pid := 1234 |} SIGTERM w) =
  Some (Errno 3).
Proof.
  intros w.
  destruct (control_calls_surface_errors w) as (Hs & _).
  destruct (Hs {| PidFD.fd := 9; PidFD.pid := 1234 |} SIGTERM) as (_ & Hr & _);
    [vm_compute; discriminate |].
  rewrite Hr. reflexivity.
Defined.

End MoreRuns.

Lemma SigSet_determined_by_members_run :
  in_uint64 0 /\
  (SigSet.Empty 0 = true <-> forall sig : Z, SigSet.Has 0 sig = false).
Proof.
  assert (H : in_uint64 0) by (unfold in_uint64; lia).
  split; [exact H |].
  apply (SigSet_determined_by_members 0 0 H H).
Defined.

Lemma SigSet_Add_Del_laws_run :
  in_uint64 512 /\
  SigSet.Add (SigSet.Add 512 SIGTERM) SIGUSR1 = SigSet.Add (SigSet.Add 512 SIGUSR1) SIGTERM /\
  SigSet.Add (SigSet.Del 512 SIGUSR1) SIGUSR1 = 512.
Proof.
  assert (H : in_uint64 512) by (unfold in_uint64; lia).
  split; [exact H |].
  split.
  - apply (SigSet_Add_Del_laws 512 SIGTERM SIGUSR1 H).
  - apply (SigSet_Add_Del_laws 512 SIGUSR1 SIGUSR1 H). reflexivity.
Defined.
